(** * bank-server: the ledger core and its protocol adapter

    A shallow embedding of [bank.hpp], [bank.cpp] and the connections of
    [bank_server.cpp] with their commands, followed by the properties of
    the ledger that the specification states and by further properties of
    the code.

    Conventions of the embedding.
    - A [bank::user] lives in a node of the ledger's [unordered_map] and is
      never moved or destroyed; its address is its identity.  The heap is the
      list of all users ever constructed, and an address is an index in it.
    - [int] is the 32-bit two's complement integer; arithmetic on it is
      written with its wrap-around ([Int.wrap]), which is what the machine
      does where C++ leaves signed overflow undefined.  [std::size_t] is
      the 64-bit unsigned integer.
    - Every member function runs its whole body under the mutexes it takes,
      so one call is one atomic step on the heap; threads are interleavings
      of such steps.  [std::condition_variable] is kept as the number of
      [notify_all] broadcasts issued on it. *)

From Stdlib Require Import ZArith Lia.
From stdpp Require Import gmap strings list pretty.

Local Open Scope Z_scope.

(** ** Machine integers *)

Module Int.
Definition min_int : Z := -2147483648.
Definition max_int : Z := 2147483647.

Definition in_range (z : Z) : Prop := min_int <= z <= max_int.

Definition wrap (z : Z) : Z := (z + 2147483648) mod 4294967296 - 2147483648.

Definition add (a b : Z) : Z := wrap (a + b).
Definition sub (a b : Z) : Z := wrap (a - b).
Definition neg (a : Z) : Z := wrap (- a).

Global Instance in_range_dec z : Decision (in_range z).
Proof. unfold in_range. apply _. Defined.
End Int.

(** [std::size_t]: 64-bit unsigned, and its conversion to [int]. *)
Module Size.
Definition modulus : Z := 18446744073709551616.
Definition in_range (z : Z) : Prop := 0 <= z < modulus.
Definition wrap (z : Z) : Z := z mod modulus.
Definition sub (a b : Z) : Z := wrap (a - b).
(** [static_cast<int>] of a [std::size_t]. *)
Definition to_int (z : Z) : Z := Int.wrap z.
End Size.

(** ** bank.hpp, bank.cpp *)

Module bank.

Abbreviation addr := nat (only parsing).

(** [struct transaction]; [counterparty] is [nullptr] for the opening
    deposit. *)
Record transaction := mk_transaction {
  counterparty : option addr;
  balance_delta_xts : Z;
  comment : string
}.

(** [class user].  [cv_new_transaction_] counts the [notify_all]
    broadcasts; [mutex_] is held during every access below. *)
Record user := mk_user {
  name_ : string;
  balance_ : Z;
  transactions_ : list transaction;
  cv_new_transaction_ : nat
}.

Abbreviation heap := (list user).

Definition set_balance (b : Z) (u : user) : user :=
  mk_user (name_ u) b (transactions_ u) (cv_new_transaction_ u).

(** [user::add_transaction]: [emplace_back], then [notify_all]. *)
Definition add_transaction (to : option addr) (delta : Z) (c : string)
    (u : user) : user :=
  mk_user (name_ u) (balance_ u)
          (transactions_ u ++ [mk_transaction to delta c])
          (S (cv_new_transaction_ u)).

(** [user::user(std::string name)]. *)
Definition user_ctor (name : string) : user :=
  add_transaction None 100 ("Initial deposit for " +:+ name)
                  (mk_user name 100 [] 0).

Definition name (u : user) : string := name_ u.

Definition balance_xts (a : addr) (h : heap) : option Z :=
  balance_ <$> h !! a.

(** The exceptions; each carries only its [what()] text. *)
Inductive transfer_error :=
| invalid_transfer_error (what : string)
| not_enough_funds_error (what : string).

Definition what (e : transfer_error) : string :=
  match e with
  | invalid_transfer_error m => m
  | not_enough_funds_error m => m
  end.

(** [not_enough_funds_error::create_message]. *)
Definition create_message (current requested : Z) : string :=
  "Not enough funds: " +:+ pretty current +:+ " XTS available, "
    +:+ pretty requested +:+ " XTS requested".

Definition make_not_enough_funds_error (current_balance requested_XTS : Z)
    : transfer_error :=
  not_enough_funds_error (create_message current_balance requested_XTS).

Inductive outcome :=
| returned
| thrown (e : transfer_error).

(** [user::transfer].  [None] only when [this] or [counterparty] is not the
    address of a user, which no C++ reference can be. *)
Definition transfer (this cpty : addr) (amount_xts : Z) (c : string)
    (h : heap) : option (heap * outcome) :=
  match h !! this, h !! cpty with
  | Some u, Some _ =>
    if decide (this = cpty) then
      Some (h, thrown (invalid_transfer_error "Self-transfer"))
    else if decide (amount_xts < 0) then
      Some (h, thrown (invalid_transfer_error "Negative amount, you're lose:("))
    else
      let new_user_amount := Int.sub (balance_ u) amount_xts in
      if decide (new_user_amount < 0) then
        Some (h, thrown (make_not_enough_funds_error (balance_ u) amount_xts))
      else
        let h1 := alter (λ v, set_balance (Int.sub (balance_ v) amount_xts) v)
                        this h in
        let h2 := alter (add_transaction (Some cpty) (Int.neg amount_xts) c)
                        this h1 in
        let h3 := alter (λ v, set_balance (Int.add (balance_ v) amount_xts) v)
                        cpty h2 in
        let h4 := alter (add_transaction (Some this) amount_xts c) cpty h3 in
        Some (h4, returned)
  | _, _ => None
  end.

(** [class user_transactions_iterator]. *)
Record user_transactions_iterator := mk_iterator {
  user_ : addr;
  index_ : nat
}.

(** [user::snapshot_transactions]: the visitor [f] sees the log and the
    balance under the lock; its result stands for what it did with them. *)
Definition snapshot_transactions {R} (a : addr)
    (f : list transaction → Z → R) (h : heap)
    : option (R * user_transactions_iterator) :=
  match h !! a with
  | Some u =>
    Some (f (transactions_ u) (balance_ u),
          mk_iterator a (length (transactions_ u)))
  | None => None
  end.

(** [user::monitor]. *)
Definition monitor (a : addr) (h : heap) : option user_transactions_iterator :=
  match h !! a with
  | Some u => Some (mk_iterator a (length (transactions_ u)))
  | None => None
  end.

(** [user_transactions_iterator::wait_next_transaction].  The condition
    variable's predicate is [index_ < transactions_.size()]; [None] is the
    call still blocked in [wait]. *)
Definition wait_next_transaction (it : user_transactions_iterator) (h : heap)
    : option (transaction * user_transactions_iterator) :=
  match h !! user_ it with
  | Some u =>
    match transactions_ u !! index_ it with
    | Some t => Some (t, mk_iterator (user_ it) (S (index_ it)))
    | None => None
    end
  | None => None
  end.

(** [class ledger] together with the memory that holds its users. *)
Record state := mk_state {
  mem : heap;
  users_ : gmap string addr
}.

Definition init : state := mk_state [] ∅.

(** [ledger::get_or_create_user]. *)
Definition get_or_create_user (nm : string) (s : state) : state * addr :=
  match users_ s !! nm with
  | Some a => (s, a)
  | None =>
    let a := length (mem s) in
    (mk_state (mem s ++ [user_ctor nm]) (<[nm := a]> (users_ s)), a)
  end.

(** The calls that change the ledger, and their runs. *)
Inductive op :=
| op_get_or_create_user (nm : string)
| op_transfer (this cpty : addr) (amount_xts : Z) (c : string).

Definition step (o : op) (s : state) : option state :=
  match o with
  | op_get_or_create_user nm => Some (get_or_create_user nm s).1
  | op_transfer this cpty amount c =>
    if decide (Int.in_range amount) then
      match transfer this cpty amount c (mem s) with
      | Some (h, _) => Some (mk_state h (users_ s))
      | None => None
      end
    else None
  end.

Fixpoint run (ops : list op) (s : state) : option state :=
  match ops with
  | [] => Some s
  | o :: ops' =>
    match step o s with
    | Some s' => run ops' s'
    | None => None
    end
  end.

Definition reachable (s : state) : Prop := ∃ ops, run ops init = Some s.

End bank.

(** ** bank_test.cpp: the replay of a snapshot *)

Module bank_test.
Import bank.

(** The loop of the test case on atomic snapshots: an [int] accumulator
    that adds [balance_delta_xts] of every entry in turn, with
    [REQUIRE(real_balance_xts >= 0)] after every addition.  [None] is a
    [REQUIRE] that failed. *)
Definition real_balance_xts (v1 : list transaction) : option Z :=
  fold_left
    (λ acc t,
       match acc with
       | Some real_balance_xts =>
         let real_balance_xts :=
           Int.add real_balance_xts (balance_delta_xts t) in
         if decide (0 ≤ real_balance_xts) then Some real_balance_xts
         else None
       | None => None
       end)
    v1 (Some 0).

(** The visitor that the test passes to [snapshot_transactions]: the
    replay, then [REQUIRE(balance_xts == real_balance_xts)]. *)
Definition replay_visitor (ts : list transaction) (balance_xts : Z) : bool :=
  bool_decide (real_balance_xts ts = Some balance_xts).

End bank_test.

(** ** bank_server.cpp: [client_connection] *)

Module client_connection.
Import bank.

Definition tab : string := String (Ascii.ascii_of_nat 9) "".
Definition nl : string := String (Ascii.ascii_of_nat 10) "".

(** A connection: the account it is logged in to and the lines written to
    the socket stream so far. *)
Record t := mk {
  user_ : addr;
  client_ : list string
}.

(** One transaction line: counterparty name or a dash, delta, comment. *)
Definition format_transaction (h : heap) (cur : transaction) : string :=
  match counterparty cur with
  | None => "-"
  | Some a => match h !! a with Some u => name u | None => "" end
  end +:+ tab +:+ pretty (balance_delta_xts cur) +:+ tab
      +:+ comment cur +:+ nl.

Definition header : string := "CPTY" +:+ tab +:+ "BAL" +:+ tab +:+ "COMM" +:+ nl.

Definition footer (balance : Z) : string :=
  "===== BALANCE: " +:+ pretty balance +:+ " XTS =====" +:+ nl.

(** [start] of [get_transactions]: the difference is taken in
    [std::size_t], converted to [int], then clamped at 0. *)
Definition start_index (size n : Z) : Z :=
  Z.max (Size.to_int (Size.sub size n)) 0.

(** The visitor that [get_transactions] passes to [snapshot_transactions]:
    the [for] loop runs [i] from [start] up to the size converted to
    [int]. *)
Definition get_transactions_visitor (h : heap) (n : Z)
    (transactions : list transaction) (balance : Z) : list string :=
  let size := Z.of_nat (length transactions) in
  let start := start_index size n in
  [header]
  ++ omap (λ i, format_transaction h <$> transactions !! Z.to_nat i)
          (seqZ start (Size.to_int size - start))
  ++ [footer balance].

(** [client_connection::get_transactions]; the iterator that
    [snapshot_transactions] returns is dropped. *)
Definition get_transactions (n : Z) (h : heap) (c : t) : option t :=
  match snapshot_transactions (user_ c) (get_transactions_visitor h n) h with
  | Some (lines, _) => Some (mk (user_ c) (client_ c ++ lines))
  | None => None
  end.

(** [client_connection::monitor] takes the account's lock three times: in
    [get_transactions], in [user::monitor], and in every
    [wait_next_transaction].  The program counter says which comes next. *)
Inductive monitor_pc :=
| pc_get_transactions
| pc_user_monitor
| pc_wait_next (it : user_transactions_iterator).

Definition monitor_step (n : Z) (h : heap) (c : t) (pc : monitor_pc)
    : option (t * monitor_pc) :=
  match pc with
  | pc_get_transactions =>
    match get_transactions n h c with
    | Some c' => Some (c', pc_user_monitor)
    | None => None
    end
  | pc_user_monitor =>
    match bank.monitor (user_ c) h with
    | Some it => Some (c, pc_wait_next it)
    | None => None
    end
  | pc_wait_next it =>
    match wait_next_transaction it h with
    | Some (cur, it') =>
      Some (mk (user_ c) (client_ c ++ [format_transaction h cur]),
            pc_wait_next it')
    | None => None
    end
  end.

End client_connection.

(** ** Schedules: one observing thread among the others *)

Module schedule.
Import bank.

(** [ev_self]: the observing thread takes its next step, or stays blocked
    if it cannot.  [ev_other o]: some other thread completes the call [o]. *)
Inductive event :=
| ev_self
| ev_other (o : op).

(** A cursor polled by its owner while other threads work on the ledger;
    the result collects what the calls that returned have delivered. *)
Fixpoint deliver (evs : list event) (s : state)
    (it : user_transactions_iterator)
    : option (list transaction * user_transactions_iterator * state) :=
  match evs with
  | [] => Some ([], it, s)
  | ev_other o :: evs' =>
    match step o s with
    | Some s' => deliver evs' s' it
    | None => None
    end
  | ev_self :: evs' =>
    match wait_next_transaction it (mem s) with
    | Some (cur, it') =>
      match deliver evs' s it' with
      | Some (ts, it'', s'') => Some (cur :: ts, it'', s'')
      | None => None
      end
    | None => deliver evs' s it
    end
  end.

(** A connection running [monitor n] while other threads work on the
    ledger. *)
Fixpoint run_monitor (n : Z) (evs : list event) (s : state)
    (c : client_connection.t) (pc : client_connection.monitor_pc)
    : option (state * client_connection.t * client_connection.monitor_pc) :=
  match evs with
  | [] => Some (s, c, pc)
  | ev_other o :: evs' =>
    match step o s with
    | Some s' => run_monitor n evs' s' c pc
    | None => None
    end
  | ev_self :: evs' =>
    match client_connection.monitor_step n (mem s) c pc with
    | Some (c', pc') => run_monitor n evs' s c' pc'
    | None => run_monitor n evs' s c pc
    end
  end.

End schedule.

(** ** bank_server.cpp: the commands of a connection *)

Module bank_server.
Import bank client_connection.

Inductive Commands :=
| BALANCE
| TRANSACTIONS
| MONITOR
| TRANSFER
| BAD_COMMAND.

Definition command_map : gmap string Commands :=
  list_to_map [("balance", BALANCE); ("transactions", TRANSACTIONS);
               ("monitor", MONITOR); ("transfer", TRANSFER)].

(** [get_command]: [find] in the map, [BAD_COMMAND] at [end()]. *)
Definition get_command (cmd : string) : Commands :=
  match command_map !! cmd with
  | Some it => it
  | None => BAD_COMMAND
  end.

(** [client_connection::authentication]; [name] is the line read from the
    client between the prompt and the greeting. *)
Definition authentication (name : string) (s : state) : state * t :=
  let '(s', a) := get_or_create_user name s in
  (s', mk a ["What is your name?" +:+ nl; "Hi " +:+ name +:+ nl]).

(** The case [BALANCE] of [run]. *)
Definition balance (s : state) (c : t) : option t :=
  match balance_xts (user_ c) (mem s) with
  | Some b => Some (mk (user_ c) (client_ c ++ [pretty b +:+ nl]))
  | None => None
  end.

(** The case [BAD_COMMAND] of [run]. *)
Definition bad_command (cmd : string) (c : t) : t :=
  mk (user_ c) (client_ c ++ ["Unknown command: '" +:+ cmd +:+ "'" +:+ nl]).

(** Lines 142 to 144: one leading space is taken off the comment. *)
Definition strip_space (comment : string) : string :=
  match comment with
  | String a rest =>
    if Ascii.eqb a (Ascii.ascii_of_nat 32) then rest else comment
  | EmptyString => comment
  end.

(** What [client_connection::transfer] writes after the call of
    [user::transfer]: [OK], or [what()] of the [transfer_error] caught. *)
Definition reply (r : outcome) : string :=
  match r with
  | returned => "OK" +:+ nl
  | thrown e => what e +:+ nl
  end.

(** Lines 146 to 151 of [client_connection::transfer]: the call of
    [user::transfer] in its [try] block, and the line written after it. *)
Definition transfer_call (to : addr) (amount : Z) (comment : string)
    (s : state) (c : t) : option (state * t) :=
  match bank.transfer (user_ c) to amount comment (mem s) with
  | Some (h, r) =>
    Some (mk_state h (users_ s), mk (user_ c) (client_ c ++ [reply r]))
  | None => None
  end.

(** [client_connection::transfer], run with no other thread in between:
    the ledger's lock is taken for the lookup and released before
    [user::transfer] takes the two users'. *)
Definition transfer (counterparty : string) (amount : Z) (comment : string)
    (s : state) (c : t) : option (state * t) :=
  let comment := strip_space comment in
  let '(s1, to) := get_or_create_user counterparty s in
  transfer_call to amount comment s1 c.

(** The body of the loop of [client_connection::run] for one command
    line: [cmd] is its first word and [iss] the stream after it.  The
    extractions of the standard library are parameters: [iss >> n], and
    [iss >> counterparty >> amount] followed by [getline(iss, comment)].
    [monitor] does not return. *)
Inductive run_result :=
| next_command (s : state) (c : t)
| in_monitor (n : Z).

Section run.
Context {istream : Type}.
Variable extract_n : istream → Z.
Variable extract_transfer : istream → string * Z * string.

Definition run_command (cmd : string) (iss : istream) (s : state) (c : t)
    : option run_result :=
  match get_command cmd with
  | BALANCE =>
    match balance s c with
    | Some c' => Some (next_command s c')
    | None => None
    end
  | TRANSACTIONS =>
    match get_transactions (extract_n iss) (mem s) c with
    | Some c' => Some (next_command s c')
    | None => None
    end
  | MONITOR => Some (in_monitor (extract_n iss))
  | TRANSFER =>
    let '(counterparty, amount, comment) := extract_transfer iss in
    match transfer counterparty amount comment s c with
    | Some (s', c') => Some (next_command s' c')
    | None => None
    end
  | BAD_COMMAND => Some (next_command s (bad_command cmd c))
  end.

(** The threads of [server::run], one for each connection accepted.  A
    thread is in the loop of [run], or between the two locks of
    [client_connection::transfer], or inside [monitor n]. *)
Inductive mode :=
| reading
| transferring (to : addr) (amount : Z) (comment : string)
| monitoring (n : Z) (pc : monitor_pc).

(** What happens on the server, one critical section at a time: a client
    is accepted and gives its name; the thread of connection [i] reads a
    command line and runs it, a transfer as far as its lookup; the thread
    of connection [i] takes the next lock of the command it is in. *)
Inductive session_event :=
| connects (name : string)
| sends (i : nat) (cmd : string) (iss : istream)
| continues (i : nat).

(** [None] is a thread that uses a [user] pointer which is null or points
    to no user.  An event a thread is in no position for does not
    happen, and so does a step of a thread blocked in
    [wait_next_transaction]. *)
Definition session_step (e : session_event) (s : state)
    (conns : list (t * mode)) : option (state * list (t * mode)) :=
  match e with
  | connects name =>
    let '(s', c) := authentication name s in
    Some (s', conns ++ [(c, reading)])
  | sends i cmd iss =>
    match conns !! i with
    | Some (c, reading) =>
      match get_command cmd with
      | TRANSFER =>
        let '(counterparty, amount, comment) := extract_transfer iss in
        let '(s1, to) := get_or_create_user counterparty s in
        Some (s1, <[i := (c, transferring to amount (strip_space comment))]>
                    conns)
      | _ =>
        match run_command cmd iss s c with
        | Some (next_command s' c') => Some (s', <[i := (c', reading)]> conns)
        | Some (in_monitor n) =>
          Some (s, <[i := (c, monitoring n pc_get_transactions)]> conns)
        | None => None
        end
      end
    | _ => Some (s, conns)
    end
  | continues i =>
    match conns !! i with
    | Some (c, transferring to amount comment) =>
      match transfer_call to amount comment s c with
      | Some (s', c') => Some (s', <[i := (c', reading)]> conns)
      | None => None
      end
    | Some (c, monitoring n pc) =>
      match monitor_step n (mem s) c pc, pc with
      | Some (c', pc'), _ => Some (s, <[i := (c', monitoring n pc')]> conns)
      | None, pc_wait_next it =>
        if decide (is_Some (mem s !! bank.user_ it)) then Some (s, conns)
        else None
      | None, _ => None
      end
    | _ => Some (s, conns)
    end
  end.

Fixpoint session (es : list session_event) (s : state)
    (conns : list (t * mode)) : option (state * list (t * mode)) :=
  match es with
  | [] => Some (s, conns)
  | e :: es' =>
    match session_step e s conns with
    | Some (s', conns') => session es' s' conns'
    | None => None
    end
  end.

End run.

End bank_server.

Import bank.

(** ** Notions used in the statements *)

(** The source after a transfer that went through, and the destination. *)
Definition debited (cpty : addr) (amount : Z) (c : string) (u : user) : user :=
  add_transaction (Some cpty) (Int.neg amount) c
    (set_balance (Int.sub (balance_ u) amount) u).

Definition credited (this : addr) (amount : Z) (c : string) (v : user) : user :=
  add_transaction (Some this) amount c
    (set_balance (Int.add (balance_ v) amount) v).

(** The four ways a call can end. *)
Inductive transfer_case (this cpty : addr) (amount : Z) (c : string)
    (h : heap) (u v : user) : option (heap * outcome) → Prop :=
| case_self :
    this = cpty →
    transfer_case this cpty amount c h u v
      (Some (h, thrown (invalid_transfer_error "Self-transfer")))
| case_negative :
    this ≠ cpty → amount < 0 →
    transfer_case this cpty amount c h u v
      (Some (h, thrown
                  (invalid_transfer_error "Negative amount, you're lose:(")))
| case_no_funds :
    this ≠ cpty → 0 ≤ amount → Int.sub (balance_ u) amount < 0 →
    transfer_case this cpty amount c h u v
      (Some (h, thrown (make_not_enough_funds_error (balance_ u) amount)))
| case_through h' :
    this ≠ cpty → 0 ≤ amount → 0 ≤ Int.sub (balance_ u) amount →
    length h' = length h →
    h' !! this = Some (debited cpty amount c u) →
    h' !! cpty = Some (credited this amount c v) →
    (∀ a, a ≠ this → a ≠ cpty → h' !! a = h !! a) →
    transfer_case this cpty amount c h u v (Some (h', returned)).

(** The funds of a ledger, and the sum of the deltas of a log, both as
    integers without bound. *)
Definition total_funds (h : heap) : Z :=
  foldr (λ u acc, balance_ u + acc) 0 h.

Definition sum_deltas (l : list transaction) : Z :=
  foldr (λ t acc, balance_delta_xts t + acc) 0 l.

(** The invariant of a ledger whose funds fit in an [int]. *)
Record funds_inv (s : state) : Prop := mk_funds_inv {
  funds_nonneg : ∀ a u, mem s !! a = Some u → 0 ≤ balance_ u;
  funds_total : total_funds (mem s) = 100 * Z.of_nat (length (mem s));
  funds_exact : ∀ a u, mem s !! a = Some u →
                       balance_ u = sum_deltas (transactions_ u)
}.

(** A ledger of at most 21474836 accounts holds at most [max_int] units. *)
Definition max_accounts : Z := 21474836.

(** The mapping and the memory agree: a name maps to the one user that
    carries it. *)
Record ledger_inv (s : state) : Prop := mk_ledger_inv {
  ledger_named : ∀ nm a, users_ s !! nm = Some a →
                         ∃ u, mem s !! a = Some u ∧ name_ u = nm;
  ledger_owns : ∀ a u, mem s !! a = Some u → users_ s !! name_ u = Some a
}.

(** Accounts are never destroyed or renamed, logs only grow at the end,
    and the mapping only gains names. *)
Record extends (s s' : state) : Prop := mk_extends {
  extends_users : ∀ nm a, users_ s !! nm = Some a → users_ s' !! nm = Some a;
  extends_mem : ∀ a u, mem s !! a = Some u →
    ∃ u', mem s' !! a = Some u' ∧ name_ u' = name_ u
          ∧ transactions_ u `prefix_of` transactions_ u'
}.

(** Every replay of a log of the ledger passes its [REQUIRE]s and ends
    at the balance. *)
Definition replay_inv (s : state) : Prop :=
  ∀ a u, mem s !! a = Some u →
         bank_test.real_balance_xts (transactions_ u) = Some (balance_ u).

(** ** Ledgers used as instances *)

(** The "Simple transfer" test case. *)
Definition simple_transfer_ops : list op :=
  [op_get_or_create_user "Alice"; op_get_or_create_user "Bob";
   op_transfer 0 1 40 "Test transfer"].

Definition simple_transfer : state :=
  default init (run simple_transfer_ops init).

(** Alice and Bob just created, as most test cases start. *)
Definition alice_bob : state :=
  mk_state [user_ctor "Alice"; user_ctor "Bob"]
           (<["Bob" := 1%nat]> (<["Alice" := 0%nat]> ∅)).

Definition alice_initial : transaction :=
  mk_transaction None 100 "Initial deposit for Alice".

(** Pooling: account 0 is opened, then accounts 1..n are opened one by one
    and each transfers its opening 100 units to account 0.  Accounts are
    named by their number in decimal. *)
Definition open_account (k : nat) : op := op_get_or_create_user (pretty k).
Definition pay_in (k : nat) : op := op_transfer k 0 100 "pool".

Fixpoint pool (n : nat) : list op :=
  match n with
  | O => [open_account 0]
  | S k => pool k ++ [open_account (S k); pay_in (S k)]
  end.

(** The number of rounds after which account 0 holds more than
    [max_int]. *)
Definition overflow_rounds : nat := Z.to_nat max_accounts.

(** The ledger after [n] rounds. *)
Record pooled (n : nat) (s : state) : Prop := mk_pooled {
  pooled_length : length (mem s) = S n;
  pooled_first : ∃ u0, mem s !! 0%nat = Some u0
                       ∧ balance_ u0 = Int.wrap (100 * (Z.of_nat n + 1));
  pooled_names : ∀ j : nat, users_ s !! pretty j
                            = if decide (j ≤ n)%nat then Some j else None
}.

(** The ledger after [n] rounds and the opening of account [n + 1]. *)
Record opened (n : nat) (s : state) : Prop := mk_opened {
  opened_length : length (mem s) = S (S n);
  opened_first : ∃ u0, mem s !! 0%nat = Some u0
                       ∧ balance_ u0 = Int.wrap (100 * (Z.of_nat n + 1));
  opened_last : mem s !! S n = Some (user_ctor (pretty (S n)));
  opened_names : ∀ j : nat, users_ s !! pretty j
                            = if decide (j ≤ S n)%nat then Some j else None
}.

(** A schedule for Alice's connection running [monitor]: Bob pays her 10
    after her connection has printed the snapshot and before it has taken
    its cursor, and pays her 5 later. *)
Definition lost_update : list schedule.event :=
  [schedule.ev_self; schedule.ev_other (op_transfer 1 0 10 "x");
   schedule.ev_self; schedule.ev_other (op_transfer 1 0 5 "y");
   schedule.ev_self; schedule.ev_self].

Definition bob_pays_10 : transaction := mk_transaction (Some 1%nat) 10 "x".
Definition bob_pays_5 : transaction := mk_transaction (Some 1%nat) 5 "y".

(** Four accounts just created. *)
Definition four_accounts : heap :=
  [user_ctor "Alice"; user_ctor "Bob"; user_ctor "Carol"; user_ctor "Dave"].

(** The four accounts after Alice has paid Bob 10. *)
Definition rent_paid : heap :=
  [mk_user "Alice" 90
     [mk_transaction None 100 "Initial deposit for Alice";
      mk_transaction (Some 1%nat) (- 10) "rent"] 2;
   mk_user "Bob" 110
     [mk_transaction None 100 "Initial deposit for Bob";
      mk_transaction (Some 0%nat) 10 "rent"] 2;
   user_ctor "Carol"; user_ctor "Dave"].

(** ** Notions used in the further properties *)

(** The opening deposit of a user. *)
Definition opening (u : user) : transaction :=
  mk_transaction None 100 ("Initial deposit for " +:+ name_ u).

(** An entry that a transfer has put in the log of the user at [a]: its
    counterparty is another user of the heap. *)
Definition transfer_entry (h : heap) (a : addr) (t : transaction) : Prop :=
  ∃ b, counterparty t = Some b ∧ b ≠ a ∧ is_Some (h !! b).

(** The shape of a log: the opening deposit, then entries of transfers. *)
Definition log_shape (s : state) : Prop :=
  ∀ a u, mem s !! a = Some u →
         ∃ rest, transactions_ u = opening u :: rest
                 ∧ Forall (transfer_entry (mem s) a) rest.

(** The entries of a log whose counterparty is [b]; what an entry books,
    and what its counterpart in the other log books. *)
Definition with_counterparty (b : addr) (l : list transaction)
    : list transaction :=
  filter (λ t, counterparty t = Some b) l.

Definition booked (t : transaction) : Z * string :=
  (balance_delta_xts t, comment t).

Definition mirrored (t : transaction) : Z * string :=
  (- balance_delta_xts t, comment t).

(** Double entry: what the log of [a] books with counterparty [b] is, entry
    by entry, the mirror image of what the log of [b] books with
    counterparty [a]. *)
Definition double_entry (s : state) : Prop :=
  ∀ a b u v, mem s !! a = Some u → mem s !! b = Some v →
    mirrored <$> with_counterparty b (transactions_ u)
    = booked <$> with_counterparty a (transactions_ v).

(** What a transfer from [this] to [cpty] that went through has appended to
    the log of the user at [a]. *)
Definition appended (this cpty : addr) (amount : Z) (c : string) (a : addr)
    : list transaction :=
  if decide (a = this) then [mk_transaction (Some cpty) (Int.neg amount) c]
  else if decide (a = cpty) then [mk_transaction (Some this) amount c]
  else [].

(** A connection whose [user_] is a user of the ledger, filed under its
    name. *)
Definition logged_in (s : state) (c : client_connection.t) : Prop :=
  ∃ u, mem s !! client_connection.user_ c = Some u
       ∧ users_ s !! name_ u = Some (client_connection.user_ c).

(** What the thread of a connection holds on to in each mode: between
    the two locks of a transfer, the counterparty found and an [int]
    amount; while it waits in [monitor], a cursor on its own user. *)
Definition mode_ok (s : state) (c : client_connection.t)
    (m : bank_server.mode) : Prop :=
  match m with
  | bank_server.reading => True
  | bank_server.transferring to amount _ =>
    is_Some (mem s !! to) ∧ Int.in_range amount
  | bank_server.monitoring _ (client_connection.pc_wait_next it) =>
    user_ it = client_connection.user_ c
  | bank_server.monitoring _ _ => True
  end.

Definition session_inv (s : state)
    (conns : list (client_connection.t * bank_server.mode)) : Prop :=
  reachable s ∧ Forall (λ cm, logged_in s cm.1 ∧ mode_ok s cm.1 cm.2) conns.

(** * Supporting lemmas *)

(** ** Arithmetic of [int] *)

Section int_facts.


Lemma wrap_id z : Int.in_range z → Int.wrap z = z.
Proof.
  unfold Int.in_range, Int.wrap, Int.min_int, Int.max_int. intros Hz.
  rewrite Z.mod_small; lia.
Qed.

Lemma wrap_congr a b : (a - b) mod 4294967296 = 0 → Int.wrap a = Int.wrap b.
Proof.
  unfold Int.wrap. intros H. f_equal.
  apply Z.mod_divide in H; [|lia]. destruct H as [k Hk].
  replace (a + 2147483648) with (b + 2147483648 + k * 4294967296) by lia.
  apply Z_mod_plus_full.
Qed.

Lemma wrap_spec z : ∃ k, Int.wrap z = z + k * 4294967296.
Proof.
  unfold Int.wrap. exists (- ((z + 2147483648) / 4294967296)).
  pose proof (Z.div_mod (z + 2147483648) 4294967296). lia.
Qed.

Lemma wrap_add_l a b : Int.wrap (Int.wrap a + b) = Int.wrap (a + b).
Proof.
  destruct (wrap_spec a) as [k ->]. apply wrap_congr.
  replace (a + k * 4294967296 + b - (a + b)) with (k * 4294967296) by lia.
  apply Z_mod_mult.
Qed.

Lemma wrap_add_r a b : Int.wrap (a + Int.wrap b) = Int.wrap (a + b).
Proof. rewrite (Z.add_comm a), wrap_add_l. f_equal. lia. Qed.

Lemma add_neg_sub a b : Int.add a (Int.neg b) = Int.sub a b.
Proof. unfold Int.add, Int.neg, Int.sub. rewrite wrap_add_r. f_equal. Qed.

Lemma add_wrap_l a b : Int.add (Int.wrap a) b = Int.wrap (a + b).
Proof. apply wrap_add_l. Qed.

End int_facts.

(** ** What one call of [transfer] does *)

Section transfer_facts.

Context (this cpty : addr) (amount : Z) (c : string) (h : heap) (u v : user).
Hypothesis Hu : h !! this = Some u.
Hypothesis Hv : h !! cpty = Some v.

Lemma transfer_self :
  this = cpty →
  transfer this cpty amount c h
  = Some (h, thrown (invalid_transfer_error "Self-transfer")).
Proof. intros Heq. unfold transfer. rewrite Hu, Hv. by rewrite decide_True. Qed.

Lemma transfer_negative :
  this ≠ cpty → amount < 0 →
  transfer this cpty amount c h
  = Some (h, thrown (invalid_transfer_error "Negative amount, you're lose:(")).
Proof.
  intros Hne Hneg. unfold transfer. rewrite Hu, Hv.
  rewrite decide_False by done. by rewrite decide_True.
Qed.

Lemma transfer_no_funds :
  this ≠ cpty → 0 ≤ amount → Int.sub (balance_ u) amount < 0 →
  transfer this cpty amount c h
  = Some (h, thrown (make_not_enough_funds_error (balance_ u) amount)).
Proof.
  intros Hne Hpos Hlow. unfold transfer. rewrite Hu, Hv.
  rewrite decide_False by done. rewrite decide_False by lia.
  by rewrite decide_True.
Qed.

Lemma transfer_through :
  this ≠ cpty → 0 ≤ amount → 0 ≤ Int.sub (balance_ u) amount →
  ∃ h', transfer this cpty amount c h = Some (h', returned)
        ∧ length h' = length h
        ∧ h' !! this = Some (debited cpty amount c u)
        ∧ h' !! cpty = Some (credited this amount c v)
        ∧ (∀ a, a ≠ this → a ≠ cpty → h' !! a = h !! a).
Proof.
  intros Hne Hpos Hok. unfold transfer. rewrite Hu, Hv.
  rewrite decide_False by done. rewrite decide_False by lia.
  rewrite decide_False by lia.
  eexists. split; [reflexivity|]. split; [by rewrite !length_alter|].
  split; [|split].
  - rewrite !list_lookup_alter_ne by done.
    rewrite !list_lookup_alter_eq, Hu. reflexivity.
  - rewrite !list_lookup_alter_eq.
    rewrite !list_lookup_alter_ne by done. rewrite Hv. reflexivity.
  - intros a Ha1 Ha2. by rewrite !list_lookup_alter_ne.
Qed.

Lemma transfer_cases :
  transfer_case this cpty amount c h u v (transfer this cpty amount c h).
Proof.
  destruct (decide (this = cpty)) as [Heq|Hne].
  { rewrite (transfer_self Heq). by constructor. }
  destruct (decide (amount < 0)) as [Hneg|Hpos].
  { rewrite (transfer_negative Hne Hneg). by constructor. }
  destruct (decide (Int.sub (balance_ u) amount < 0)) as [Hlow|Hok].
  { rewrite transfer_no_funds by (done || lia).
    constructor; [done|lia|done]. }
  destruct transfer_through as (h' & -> & ? & ? & ? & ?); try done; try lia.
  constructor; try done; lia.
Qed.

End transfer_facts.

Lemma transfer_is_Some this cpty amount c (h h' : heap) r :
  transfer this cpty amount c h = Some (h', r) →
  ∃ u v, h !! this = Some u ∧ h !! cpty = Some v.
Proof.
  unfold transfer. destruct (h !! this), (h !! cpty); try done. eauto.
Qed.


(** ** Runs of the ledger *)

(** In the heap after a transfer that went through, a user found at [a]
    is the debited source, the credited destination, or untouched. *)
Ltac which_account a this cpty Hd Hc Hoth Hw :=
  destruct (decide (a = this)) as [->|?];
  [rewrite Hd in Hw; injection Hw as <-
  |destruct (decide (a = cpty)) as [->|?];
   [rewrite Hc in Hw; injection Hw as <-
   |rewrite Hoth in Hw by done]].

Section runs.

Lemma run_app ops1 ops2 s :
  run (ops1 ++ ops2) s = run ops1 s ≫= run ops2.
Proof.
  revert s. induction ops1 as [|o ops1 IH]; intros s; simpl; [done|].
  destruct (step o s); simpl; [apply IH|done].
Qed.

Lemma run_cons o ops s :
  run (o :: ops) s
  = match step o s with Some s' => run ops s' | None => None end.
Proof. done. Qed.

Lemma run_snoc ops o s s' :
  run ops s = Some s' → run (ops ++ [o]) s = step o s'.
Proof.
  intros H. rewrite run_app, H. simpl. by destruct (step o s').
Qed.

(** A property of states that every step keeps holds along every run. *)
Lemma run_preserves (P : state → Prop) :
  (∀ o s s', P s → step o s = Some s' → P s') →
  ∀ ops s s', P s → run ops s = Some s' → P s'.
Proof.
  intros Hstep ops. induction ops as [|o ops IH]; intros s s' HP Hrun.
  - simpl in Hrun. by simplify_eq.
  - simpl in Hrun. destruct (step o s) as [s1|] eqn:Hs1; [|done].
    eapply IH; [|exact Hrun]. eapply Hstep; eauto.
Qed.

Lemma reachable_preserves (P : state → Prop) :
  P init →
  (∀ o s s', P s → step o s = Some s' → P s') →
  ∀ s, reachable s → P s.
Proof.
  intros Hinit Hstep s [ops Hrun]. eapply run_preserves; eauto.
Qed.

Lemma reachable_init : reachable init.
Proof. by exists []. Qed.

Lemma reachable_step o s s' :
  reachable s → step o s = Some s' → reachable s'.
Proof.
  intros [ops Hrun] Hs. exists (ops ++ [o]).
  by rewrite (run_snoc _ _ _ _ Hrun).
Qed.

Lemma reachable_run ops s s' :
  reachable s → run ops s = Some s' → reachable s'.
Proof.
  intros [ops0 Hrun0] Hrun. exists (ops0 ++ ops).
  rewrite run_app, Hrun0. exact Hrun.
Qed.

(** The two kinds of step, seen from their results. *)
Lemma step_get_or_create nm s :
  step (op_get_or_create_user nm) s = Some (get_or_create_user nm s).1.
Proof. done. Qed.

Lemma step_transfer_inv this cpty amount c s s' :
  step (op_transfer this cpty amount c) s = Some s' →
  Int.in_range amount
  ∧ users_ s' = users_ s
  ∧ ∃ u v r, mem s !! this = Some u ∧ mem s !! cpty = Some v
             ∧ transfer this cpty amount c (mem s) = Some (mem s', r).
Proof.
  simpl. case_decide; [|done].
  destruct (transfer this cpty amount c (mem s)) as [[h r]|] eqn:Ht; [|done].
  intros [= <-]. simpl. split; [done|]. split; [done|].
  destruct (transfer_is_Some _ _ _ _ _ _ _ Ht) as (u & v & ? & ?).
  by exists u, v, r.
Qed.

(** A transfer step either throws and changes nothing, or goes through. *)
Lemma step_transfer_cases this cpty amount c s s' :
  step (op_transfer this cpty amount c) s = Some s' →
  Int.in_range amount ∧ users_ s' = users_ s
  ∧ (mem s' = mem s
     ∨ ∃ u v, mem s !! this = Some u ∧ mem s !! cpty = Some v
         ∧ this ≠ cpty ∧ 0 ≤ amount ∧ 0 ≤ Int.sub (balance_ u) amount
         ∧ length (mem s') = length (mem s)
         ∧ mem s' !! this = Some (debited cpty amount c u)
         ∧ mem s' !! cpty = Some (credited this amount c v)
         ∧ (∀ a, a ≠ this → a ≠ cpty → mem s' !! a = mem s !! a)).
Proof.
  intros Hstep.
  apply step_transfer_inv in Hstep as (Hr & Hl & u & v & r & Hu & Hv & Ht).
  split; [done|]. split; [done|].
  pose proof (transfer_cases this cpty amount c _ _ _ Hu Hv) as Hc.
  rewrite Ht in Hc.
  inversion Hc as [ | | |h' Hne Hpos Hok Hlen Hd Hcr Hoth]; subst;
    [by left..|].
  right. exists u, v. repeat split; done.
Qed.

Lemma get_or_create_user_old nm s a :
  users_ s !! nm = Some a → get_or_create_user nm s = (s, a).
Proof. intros H. unfold get_or_create_user. by rewrite H. Qed.

Lemma get_or_create_user_new nm s :
  users_ s !! nm = None →
  get_or_create_user nm s
  = (mk_state (mem s ++ [user_ctor nm]) (<[nm := length (mem s)]> (users_ s)),
     length (mem s)).
Proof. intros H. unfold get_or_create_user. by rewrite H. Qed.

(** A property of single users that holds of a new user and is kept by
    debit and credit holds of every user of every reachable ledger. *)
Lemma reachable_users (P : user → Prop) :
  (∀ nm, P (user_ctor nm)) →
  (∀ cpty amount c u, P u → P (debited cpty amount c u)) →
  (∀ this amount c v, P v → P (credited this amount c v)) →
  ∀ s, reachable s → ∀ a u, mem s !! a = Some u → P u.
Proof.
  intros Hnew Hdebit Hcredit.
  apply (reachable_preserves (λ s, ∀ a u, mem s !! a = Some u → P u));
    [done|].
  intros o s s' Hinv Hstep. destruct o as [nm|this cpty amount c].
  - rewrite step_get_or_create in Hstep. injection Hstep as <-.
    unfold get_or_create_user. destruct (users_ s !! nm); [done|].
    intros a u. simpl. rewrite lookup_app_Some.
    intros [Hu|[_ Hu]]; [by eapply Hinv|].
    apply list_lookup_singleton_Some in Hu as [_ <-]. apply Hnew.
  - apply step_transfer_cases in Hstep as (_ & _ & [Heq|Hthrough]).
    { by rewrite Heq. }
    destruct Hthrough as (u & v & Hu & Hv & _ & _ & _ & _ & Hd & Hc & Hoth).
    intros a w Hw. which_account a this cpty Hd Hc Hoth Hw.
    + apply Hdebit. by eapply Hinv.
    + apply Hcredit. by eapply Hinv.
    + by eapply Hinv.
Qed.

End runs.

(** ** Funds: while the total fits in an [int], nothing wraps *)

Section funds.

Lemma total_funds_app h1 h2 :
  total_funds (h1 ++ h2) = total_funds h1 + total_funds h2.
Proof. induction h1 as [|u h1 IH]; simpl; lia. Qed.

Lemma sum_deltas_snoc l t :
  sum_deltas (l ++ [t]) = sum_deltas l + balance_delta_xts t.
Proof. induction l as [|x l IH]; simpl; lia. Qed.

Lemma total_funds_insert (h : heap) i x y :
  h !! i = Some y →
  total_funds (<[i := x]> h) = total_funds h - balance_ y + balance_ x.
Proof.
  revert i. induction h as [|u h IH]; intros [|i] Hy; simplify_eq/=.
  - lia.
  - rewrite (IH _ Hy). lia.
Qed.

Lemma total_funds_nonneg (h : heap) :
  (∀ a u, h !! a = Some u → 0 ≤ balance_ u) → 0 ≤ total_funds h.
Proof.
  induction h as [|u h IH]; intros Hall; simpl; [lia|].
  pose proof (Hall 0%nat u eq_refl).
  assert (0 ≤ total_funds h); [|lia].
  apply IH. intros a w Hw. by apply (Hall (S a)).
Qed.

(** Two different accounts never hold more than there is. *)
Lemma two_balances_le_total (h : heap) i j u v :
  i ≠ j → h !! i = Some u → h !! j = Some v →
  (∀ a w, h !! a = Some w → 0 ≤ balance_ w) →
  balance_ u + balance_ v ≤ total_funds h.
Proof.
  intros Hne Hu Hv Hall.
  set (h0 := <[j := set_balance 0 v]> (<[i := set_balance 0 u]> h)).
  assert (total_funds h0 = total_funds h - balance_ u - balance_ v) as Ht.
  { unfold h0. rewrite (total_funds_insert _ _ _ v).
    - rewrite (total_funds_insert _ _ _ u) by done. simpl. lia.
    - by rewrite list_lookup_insert_ne. }
  assert (0 ≤ total_funds h0); [|lia].
  apply total_funds_nonneg. intros a w. unfold h0.
  destruct (decide (a = j)) as [->|Hj].
  { rewrite list_lookup_insert_eq; [by intros [= <-]|].
    rewrite length_insert. by eapply lookup_lt_Some. }
  rewrite list_lookup_insert_ne by done.
  destruct (decide (a = i)) as [->|Hi].
  { rewrite list_lookup_insert_eq; [by intros [= <-]|].
    by eapply lookup_lt_Some. }
  rewrite list_lookup_insert_ne by done. apply Hall.
Qed.

(** The heap after a transfer that went through, as two updates. *)
Lemma through_as_insert (h h' : heap) (this cpty : addr) u' v' :
  this ≠ cpty → length h' = length h →
  (this < length h)%nat → (cpty < length h)%nat →
  h' !! this = Some u' → h' !! cpty = Some v' →
  (∀ a, a ≠ this → a ≠ cpty → h' !! a = h !! a) →
  h' = <[cpty := v']> (<[this := u']> h).
Proof.
  intros Hne Hlen Hlt1 Hlt2 Hu Hv Hoth. apply list_eq. intros a.
  destruct (decide (a = cpty)) as [->|Hc].
  { rewrite list_lookup_insert_eq; [done|]. by rewrite length_insert. }
  rewrite list_lookup_insert_ne by done.
  destruct (decide (a = this)) as [->|Ht].
  { by rewrite list_lookup_insert_eq. }
  rewrite list_lookup_insert_ne by done. by apply Hoth.
Qed.

Lemma funds_inv_init : funds_inv init.
Proof. split; simpl; try done. Qed.

Lemma step_length o s s' :
  step o s = Some s' → (length (mem s) ≤ length (mem s'))%nat.
Proof.
  destruct o as [nm|this cpty amount c]; intros Hstep.
  - rewrite step_get_or_create in Hstep. injection Hstep as <-.
    unfold get_or_create_user. destruct (users_ s !! nm); simpl; [done|].
    rewrite length_app. simpl. lia.
  - apply step_transfer_cases in Hstep as (_ & _ & [->|H]); [done|].
    destruct H as (u & v & _ & _ & _ & _ & _ & -> & _). done.
Qed.

Lemma run_length ops s s' :
  run ops s = Some s' → (length (mem s) ≤ length (mem s'))%nat.
Proof.
  revert s. induction ops as [|o ops IH]; intros s Hrun; simpl in Hrun.
  - by simplify_eq.
  - destruct (step o s) as [s1|] eqn:Hs1; [|done].
    pose proof (step_length _ _ _ Hs1). pose proof (IH _ Hrun). lia.
Qed.

End funds.

Section funds_invariant.

Lemma sub_exact a b :
  0 ≤ a ≤ Int.max_int → 0 ≤ b ≤ Int.max_int → Int.sub a b = a - b.
Proof.
  unfold Int.max_int. intros Ha Hb. apply wrap_id.
  unfold Int.in_range, Int.min_int, Int.max_int. lia.
Qed.

Lemma add_exact a b :
  0 ≤ a → 0 ≤ b → a + b ≤ Int.max_int → Int.add a b = a + b.
Proof.
  unfold Int.max_int. intros Ha Hb Hab. apply wrap_id.
  unfold Int.in_range, Int.min_int, Int.max_int. lia.
Qed.

Lemma neg_exact a : 0 ≤ a ≤ Int.max_int → Int.neg a = - a.
Proof.
  unfold Int.max_int. intros Ha. apply wrap_id.
  unfold Int.in_range, Int.min_int, Int.max_int. lia.
Qed.

Lemma funds_inv_step o s s' :
  funds_inv s →
  100 * Z.of_nat (length (mem s')) ≤ Int.max_int →
  step o s = Some s' →
  funds_inv s'.
Proof.
  intros [Hnn Htot Hex] Hbound Hstep.
  destruct o as [nm|this cpty amount c].
  - rewrite step_get_or_create in Hstep. injection Hstep as <-.
    unfold get_or_create_user. destruct (users_ s !! nm); [by split|].
    split; simpl.
    + intros a u. rewrite lookup_app_Some. intros [Hu|[_ Hu]]; [by eapply Hnn|].
      apply list_lookup_singleton_Some in Hu as [_ <-]. simpl. lia.
    + rewrite total_funds_app, length_app, Htot. simpl. lia.
    + intros a u. rewrite lookup_app_Some. intros [Hu|[_ Hu]]; [by eapply Hex|].
      apply list_lookup_singleton_Some in Hu as [_ <-]. reflexivity.
  - apply step_transfer_cases in Hstep as (Hr & _ & [Heq|Hthrough]).
    { split; rewrite Heq; done. }
    destruct Hthrough
      as (u & v & Hu & Hv & Hne & Hpos & Hok & Hlen & Hd & Hc & Hoth).
    pose proof (Hnn _ _ Hu) as Hu0. pose proof (Hnn _ _ Hv) as Hv0.
    pose proof (two_balances_le_total _ _ _ _ _ Hne Hu Hv Hnn) as Hle.
    rewrite Htot, <- Hlen in Hle.
    destruct Hr as [_ Hamax].
    assert (Int.sub (balance_ u) amount = balance_ u - amount) as Hsub
      by (apply sub_exact; lia).
    assert (Int.add (balance_ v) amount = balance_ v + amount) as Hadd
      by (apply add_exact; lia).
    assert (Int.neg amount = - amount) as Hneg by (apply neg_exact; lia).
    split.
    + intros a w Hw. which_account a this cpty Hd Hc Hoth Hw.
      * simpl. lia.
      * simpl. lia.
      * by eapply Hnn.
    + rewrite (through_as_insert (mem s) (mem s') this cpty _ _
                 Hne Hlen (lookup_lt_Some _ _ _ Hu) (lookup_lt_Some _ _ _ Hv)
                 Hd Hc Hoth).
      rewrite (total_funds_insert _ _ _ v)
        by (by rewrite list_lookup_insert_ne).
      rewrite (total_funds_insert _ _ _ u) by done.
      rewrite !length_insert, Htot. simpl. lia.
    + intros a w Hw. which_account a this cpty Hd Hc Hoth Hw.
      * simpl. rewrite sum_deltas_snoc. simpl. rewrite <- (Hex _ _ Hu). lia.
      * simpl. rewrite sum_deltas_snoc. simpl. rewrite <- (Hex _ _ Hv). lia.
      * by eapply Hex.
Qed.

Lemma funds_inv_run ops s s' :
  funds_inv s →
  100 * Z.of_nat (length (mem s')) ≤ Int.max_int →
  run ops s = Some s' →
  funds_inv s'.
Proof.
  revert s. induction ops as [|o ops IH]; intros s Hinv Hbound Hrun;
    simpl in Hrun.
  - by simplify_eq.
  - destruct (step o s) as [s1|] eqn:Hs1; [|done].
    apply (IH s1); [|done|done].
    apply (funds_inv_step o s); [done| |done].
    pose proof (run_length _ _ _ Hrun). lia.
Qed.

Lemma funds_inv_reachable s :
  reachable s → Z.of_nat (length (mem s)) ≤ max_accounts → funds_inv s.
Proof.
  intros [ops Hrun] Hn.
  eapply funds_inv_run; [apply funds_inv_init| |exact Hrun].
  unfold max_accounts, Int.max_int in *. lia.
Qed.

(** There the balance is the exact sum of the deltas of the log. *)
Lemma balance_exact_sum s a u :
  reachable s → Z.of_nat (length (mem s)) ≤ max_accounts →
  mem s !! a = Some u → balance_ u = sum_deltas (transactions_ u).
Proof. intros Hs Hn. by apply (funds_exact _ (funds_inv_reachable _ Hs Hn)). Qed.

(** In general it is that sum brought into the range of [int]. *)
Lemma balance_wrap_sum s a u :
  reachable s → mem s !! a = Some u →
  balance_ u = Int.wrap (sum_deltas (transactions_ u)).
Proof.
  intros Hs. revert a u. revert s Hs. apply (reachable_users
    (λ u, balance_ u = Int.wrap (sum_deltas (transactions_ u)))).
  - done.
  - intros cpty amount c w Hw. simpl. rewrite sum_deltas_snoc. simpl.
    rewrite Hw, <- add_neg_sub. unfold Int.add, Int.neg.
    by rewrite wrap_add_l, wrap_add_r.
  - intros this amount c w Hw. simpl. rewrite sum_deltas_snoc. simpl.
    rewrite Hw. apply add_wrap_l.
Qed.

(** ** The replay of a log, with its [REQUIRE]s *)

Section replay.
Import bank_test.

Lemma real_balance_xts_snoc l t :
  real_balance_xts (l ++ [t])
  = match real_balance_xts l with
    | Some r =>
      if decide (0 ≤ Int.add r (balance_delta_xts t))
      then Some (Int.add r (balance_delta_xts t)) else None
    | None => None
    end.
Proof. unfold real_balance_xts. by rewrite fold_left_app. Qed.

(** A replay that passes its [REQUIRE]s ends at 0 or above. *)
Lemma real_balance_xts_nonneg l r : real_balance_xts l = Some r → 0 ≤ r.
Proof.
  destruct l as [|t l _] using rev_ind.
  - intros [= <-]. done.
  - rewrite real_balance_xts_snoc.
    destruct (real_balance_xts l) as [r0|]; [|done].
    case_decide; [|done]. by intros [= <-].
Qed.

Lemma replay_inv_step o s s' :
  funds_inv s' → replay_inv s → step o s = Some s' → replay_inv s'.
Proof.
  intros Hf Hinv Hstep. destruct o as [nm|this cpty amount c].
  - rewrite step_get_or_create in Hstep. simplify_eq.
    unfold get_or_create_user. destruct (users_ s !! nm); [done|].
    intros a u. simpl. rewrite lookup_app_Some.
    intros [Hu|[_ Hu]]; [by apply (Hinv a)|].
    apply list_lookup_singleton_Some in Hu as [_ <-]. reflexivity.
  - destruct (step_transfer_cases _ _ _ _ _ _ Hstep)
      as (Hr & Hus & [Heq|Hthrough]).
    { intros a u. rewrite Heq. apply Hinv. }
    destruct Hthrough
      as (u & v & Hu & Hv & Hne & Hpos & Hok & Hlen & Hd & Hc & Hoth).
    intros a w Hw. which_account a this cpty Hd Hc Hoth Hw.
    + simpl. rewrite real_balance_xts_snoc, (Hinv _ _ Hu). simpl.
      rewrite add_neg_sub. by rewrite decide_True.
    + pose proof (funds_nonneg _ Hf _ _ Hc) as Hv0. simpl in Hv0.
      simpl. rewrite real_balance_xts_snoc, (Hinv _ _ Hv). simpl.
      by rewrite decide_True.
    + by apply (Hinv a).
Qed.

Lemma replay_inv_run ops s s' :
  100 * Z.of_nat (length (mem s')) ≤ Int.max_int →
  funds_inv s → replay_inv s → run ops s = Some s' → replay_inv s'.
Proof.
  revert s. induction ops as [|o ops IH]; intros s Hn Hf Hinv Hrun.
  - simpl in Hrun. by simplify_eq.
  - rewrite run_cons in Hrun. destruct (step o s) as [s1|] eqn:Hstep; [|done].
    assert (funds_inv s1) as Hf1.
    { apply (funds_inv_step o s); [done| |done].
      pose proof (run_length _ _ _ Hrun). lia. }
    apply (IH s1); [done|done| |done].
    by apply (replay_inv_step o s).
Qed.

Lemma replay_inv_reachable s a u :
  reachable s → Z.of_nat (length (mem s)) ≤ max_accounts →
  mem s !! a = Some u →
  real_balance_xts (transactions_ u) = Some (balance_ u).
Proof.
  intros [ops Hrun] Hn. revert a u.
  apply (replay_inv_run ops init s); [|apply funds_inv_init| |exact Hrun].
  - unfold max_accounts, Int.max_int in *. lia.
  - intros a u Hu. simpl in Hu. by rewrite lookup_nil in Hu.
Qed.

End replay.

End funds_invariant.

(** ** Pooling: many accounts pay their opening deposit to the first *)

Section pooling.

Lemma step_transfer_through this cpty amount c s u v :
  Int.in_range amount →
  mem s !! this = Some u → mem s !! cpty = Some v → this ≠ cpty →
  0 ≤ amount → 0 ≤ Int.sub (balance_ u) amount →
  ∃ s', step (op_transfer this cpty amount c) s = Some s'
        ∧ transfer this cpty amount c (mem s) = Some (mem s', returned)
        ∧ users_ s' = users_ s
        ∧ length (mem s') = length (mem s)
        ∧ mem s' !! this = Some (debited cpty amount c u)
        ∧ mem s' !! cpty = Some (credited this amount c v)
        ∧ (∀ a, a ≠ this → a ≠ cpty → mem s' !! a = mem s !! a).
Proof.
  intros Hr Hu Hv Hne Hpos Hok.
  destruct (transfer_through this cpty amount c (mem s) u v)
    as (h' & Ht & Hlen & Hd & Hc & Hoth); try done.
  exists (mk_state h' (users_ s)). simpl.
  rewrite decide_True by done. rewrite Ht. done.
Qed.

Lemma pooled_open n s :
  pooled n s → ∃ s1, step (open_account (S n)) s = Some s1 ∧ opened n s1.
Proof.
  intros [Hlen (u0 & Hu0 & Hb) Hnames].
  eexists. split; [apply step_get_or_create|].
  rewrite get_or_create_user_new
    by (rewrite Hnames; apply decide_False; lia).
  split; simpl.
  - rewrite length_app, Hlen. simpl. lia.
  - exists u0. split; [|done]. by apply lookup_app_l_Some.
  - rewrite lookup_app_r by lia. by rewrite Hlen, Nat.sub_diag.
  - intros j. destruct (decide (j = S n)) as [->|Hj].
    + rewrite lookup_insert_eq, Hlen. by rewrite decide_True.
    + rewrite lookup_insert_ne by (by intros ?%(inj pretty)).
      rewrite Hnames. repeat case_decide; done || lia.
Qed.

Lemma opened_pay n s1 :
  opened n s1 →
  ∃ s2, step (pay_in (S n)) s1 = Some s2
        ∧ transfer (S n) 0 100 "pool" (mem s1) = Some (mem s2, returned)
        ∧ pooled (S n) s2.
Proof.
  intros [Hlen (u0 & Hu0 & Hb) Hlast Hnames].
  assert (Int.in_range 100) as Hr by done.
  destruct (step_transfer_through (S n) 0 100 "pool" s1 _ _ Hr Hlast Hu0)
    as (s2 & Hstep & Ht & Hus & Hl & Hd & Hc & Hoth); try done.
  exists s2. split; [done|]. split; [done|]. split.
  - by rewrite Hl.
  - eexists. split; [exact Hc|]. simpl. rewrite Hb, add_wrap_l.
    f_equal. lia.
  - intros j. by rewrite Hus, Hnames.
Qed.

Lemma pool_run n : ∃ s, run (pool n) init = Some s ∧ pooled n s.
Proof.
  induction n as [|n (s & Hrun & Hp)].
  - exists (mk_state [user_ctor (pretty 0%nat)] (<[pretty 0%nat := 0%nat]> ∅)).
    split; [reflexivity|]. split; simpl.
    + done.
    + eexists. split; [done|]. reflexivity.
    + intros j. destruct (decide (j = 0%nat)) as [->|Hj].
      * by rewrite lookup_insert_eq.
      * rewrite lookup_insert_ne by (by intros ?%(inj pretty)).
        rewrite lookup_empty. rewrite decide_False; [done|lia].
  - destruct (pooled_open _ _ Hp) as (s1 & Hs1 & Ho).
    destruct (opened_pay _ _ Ho) as (s2 & Hs2 & _ & Hp2).
    exists s2. split; [|done].
    change (pool (S n)) with (pool n ++ [open_account (S n); pay_in (S n)]).
    rewrite run_app, Hrun.
    change (run [open_account (S n); pay_in (S n)] s = Some s2).
    by rewrite run_cons, Hs1, run_cons, Hs2.
Qed.

Lemma pool_open_run n :
  ∃ s, run (pool n ++ [open_account (S n)]) init = Some s ∧ opened n s.
Proof.
  destruct (pool_run n) as (s & Hrun & Hp).
  destruct (pooled_open _ _ Hp) as (s1 & Hs1 & Ho).
  exists s1. split; [|done]. by rewrite (run_snoc _ _ _ _ Hrun).
Qed.

(** The log of account 0 after [n] rounds adds up to what was paid in. *)
Lemma pool_first_log n s :
  run (pool n) init = Some s →
  ∃ u0, mem s !! 0%nat = Some u0
        ∧ sum_deltas (transactions_ u0) = 100 * (Z.of_nat n + 1).
Proof.
  revert s. induction n as [|n IH]; intros s Hrun.
  - simpl in Hrun. simplify_eq. eexists. split; reflexivity.
  - change (pool (S n)) with (pool n ++ [open_account (S n); pay_in (S n)])
      in Hrun.
    destruct (pool_run n) as (s0 & Hrun0 & [Hlen _ Hnames]).
    destruct (IH _ Hrun0) as (u0 & Hu0 & Hsum).
    rewrite run_app, Hrun0 in Hrun.
    change (run [open_account (S n); pay_in (S n)] s0 = Some s) in Hrun.
    set (s1 := mk_state (mem s0 ++ [user_ctor (pretty (S n))])
                        (<[pretty (S n) := length (mem s0)]> (users_ s0))).
    assert (step (open_account (S n)) s0 = Some s1) as Hopen.
    { unfold open_account. rewrite step_get_or_create.
      rewrite get_or_create_user_new; [done|].
      rewrite Hnames. apply decide_False. lia. }
    assert (Int.in_range 100) as Hr by done.
    destruct (step_transfer_through (S n) 0 100 "pool" s1
                (user_ctor (pretty (S n))) u0 Hr)
      as (s2 & Hstep & _ & _ & _ & _ & Hc & _); try done.
    { simpl. rewrite lookup_app_r by lia. by rewrite Hlen, Nat.sub_diag. }
    { simpl. by apply lookup_app_l_Some. }
    rewrite run_cons, Hopen, run_cons in Hrun. unfold pay_in in Hrun.
    rewrite Hstep in Hrun. simpl in Hrun.
    simplify_eq. eexists. split; [exact Hc|].
    simpl. rewrite sum_deltas_snoc, Hsum. simpl. lia.
Qed.

(** The ledger in which 21474836 accounts have paid their opening 100
    to account 0: the balance of account 0 has wrapped, its log has
    not. *)
Lemma pool_overflow :
  ∃ s u v, run (pool overflow_rounds) init = Some s
           ∧ mem s !! 0%nat = Some u ∧ mem s !! 1%nat = Some v
           ∧ balance_ u = -2147483596
           ∧ sum_deltas (transactions_ u) = 2147483700.
Proof.
  destruct (pool_run overflow_rounds) as (s & Hrun & [Hlen (u & Hu & Hb) _]).
  destruct (pool_first_log _ _ Hrun) as (u' & Hu' & Hsum).
  assert (is_Some (mem s !! 1%nat)) as [v Hv].
  { apply lookup_lt_is_Some_2. rewrite Hlen.
    unfold overflow_rounds, max_accounts. lia. }
  rewrite Hu in Hu'. injection Hu' as <-.
  exists s, u, v.
  split; [exact Hrun|]. split; [exact Hu|]. split; [exact Hv|].
  clear Hrun Hlen Hu Hv. rewrite Hb, Hsum. clear Hb Hsum.
  unfold overflow_rounds, max_accounts. rewrite Z2Nat.id by lia.
  split; reflexivity.
Qed.

End pooling.

(** ** Invariants of every reachable ledger *)

Section ledger_invariants.


Lemma ledger_inv_step o s s' :
  ledger_inv s → step o s = Some s' → ledger_inv s'.
Proof.
  intros [Hnamed Howns] Hstep. destruct o as [nm|this cpty amount c].
  - rewrite step_get_or_create in Hstep. injection Hstep as <-.
    unfold get_or_create_user. destruct (users_ s !! nm) eqn:Hnm; [done|].
    split; simpl.
    + intros nm' a. destruct (decide (nm' = nm)) as [->|Hne].
      * rewrite lookup_insert_eq. intros [= <-]. exists (user_ctor nm).
        split; [|done]. rewrite lookup_app_r by done.
        by rewrite Nat.sub_diag.
      * rewrite lookup_insert_ne by done. intros Ha.
        destruct (Hnamed _ _ Ha) as (u & Hu & Hn). exists u.
        split; [|done]. by apply lookup_app_l_Some.
    + intros a u. rewrite lookup_app_Some. intros [Hu|[Hlen Hu]].
      * pose proof (Howns _ _ Hu) as Ha.
        rewrite lookup_insert_ne; [done|]. intros ->. congruence.
      * apply list_lookup_singleton_Some in Hu as [Hz <-]. simpl.
        rewrite lookup_insert_eq. f_equal. lia.
  - apply step_transfer_cases in Hstep as (_ & Hus & [Heq|Hthrough]).
    { split; rewrite Heq, Hus; done. }
    destruct Hthrough as (u & v & Hu & Hv & Hne & _ & _ & _ & Hd & Hc & Hoth).
    split; rewrite Hus.
    + intros nm a Ha. destruct (Hnamed _ _ Ha) as (w & Hw & Hn).
      destruct (decide (a = this)) as [->|Hna].
      { eexists. split; [exact Hd|]. simpl. congruence. }
      destruct (decide (a = cpty)) as [->|Hnb].
      { eexists. split; [exact Hc|]. simpl. congruence. }
      exists w. split; [|done]. by rewrite Hoth.
    + intros a w Hw. which_account a this cpty Hd Hc Hoth Hw.
      * simpl. by apply Howns.
      * simpl. by apply Howns.
      * by apply Howns.
Qed.

Lemma ledger_inv_reachable s : reachable s → ledger_inv s.
Proof.
  apply reachable_preserves; [|apply ledger_inv_step].
  split; [intros nm a|intros a u]; done.
Qed.

Lemma extends_refl s : extends s s.
Proof. split; [done|]. intros a u Hu. by exists u. Qed.

Lemma extends_trans s1 s2 s3 : extends s1 s2 → extends s2 s3 → extends s1 s3.
Proof.
  intros [U12 M12] [U23 M23]. split; [by auto|].
  intros a u Hu. destruct (M12 _ _ Hu) as (u2 & Hu2 & Hn2 & Hp2).
  destruct (M23 _ _ Hu2) as (u3 & Hu3 & Hn3 & Hp3).
  exists u3. split; [done|]. split; [congruence|]. by etrans.
Qed.

Lemma step_extends o s s' : step o s = Some s' → extends s s'.
Proof.
  intros Hstep. destruct o as [nm|this cpty amount c].
  - rewrite step_get_or_create in Hstep. injection Hstep as <-.
    unfold get_or_create_user. destruct (users_ s !! nm) eqn:Hnm;
      [apply extends_refl|].
    split; simpl.
    + intros nm' a Ha. rewrite lookup_insert_ne; [done|]. congruence.
    + intros a u Hu. exists u. split; [by apply lookup_app_l_Some|done].
  - apply step_transfer_cases in Hstep as (_ & Hus & [Heq|Hthrough]).
    { split; rewrite ?Heq, ?Hus; [done|]. intros a u Hu. by exists u. }
    destruct Hthrough as (u & v & Hu & Hv & Hne & _ & _ & _ & Hd & Hc & Hoth).
    split; rewrite ?Hus; [done|]. intros a w Hw.
    destruct (decide (a = this)) as [->|Hna].
    { eexists. split; [exact Hd|]. simplify_eq. simpl.
      split; [done|]. by apply prefix_app_r. }
    destruct (decide (a = cpty)) as [->|Hnb].
    { eexists. split; [exact Hc|]. simplify_eq. simpl.
      split; [done|]. by apply prefix_app_r. }
    exists w. by rewrite Hoth.
Qed.

Lemma run_extends ops s s' : run ops s = Some s' → extends s s'.
Proof.
  revert s. induction ops as [|o ops IH]; intros s Hrun; simpl in Hrun.
  - simplify_eq. apply extends_refl.
  - destruct (step o s) as [s1|] eqn:Hs1; [|done].
    eapply extends_trans; [by eapply step_extends|by apply IH].
Qed.

End ledger_invariants.

(** ** Names and accounts *)

Section names.

(** A name is in the mapping exactly when it has been looked up. *)
Lemma step_users_None o s s' nm :
  step o s = Some s' →
  users_ s' !! nm = None ↔ users_ s !! nm = None ∧ o ≠ op_get_or_create_user nm.
Proof.
  intros Hstep. destruct o as [nm'|this cpty amount c].
  - rewrite step_get_or_create in Hstep. injection Hstep as <-.
    unfold get_or_create_user.
    destruct (decide (nm' = nm)) as [->|Hne].
    + destruct (users_ s !! nm) eqn:Hnm; simpl.
      * rewrite Hnm. split; [done|]. by intros [? _].
      * rewrite lookup_insert_eq. split; [done|]. by intros [_ ?].
    + assert (op_get_or_create_user nm' ≠ op_get_or_create_user nm)
        by congruence.
      destruct (users_ s !! nm') eqn:Hnm'; simpl.
      * tauto.
      * rewrite lookup_insert_ne by done. tauto.
  - apply step_transfer_cases in Hstep as (_ & -> & _).
    split; [done|]. by intros [? _].
Qed.

Lemma run_users_None ops s s' nm :
  run ops s = Some s' →
  users_ s' !! nm = None
  ↔ users_ s !! nm = None ∧ op_get_or_create_user nm ∉ ops.
Proof.
  revert s. induction ops as [|o ops IH]; intros s Hrun; simpl in Hrun.
  - simplify_eq. split; [|by intros [? _]].
    intros ?. split; [done|apply not_elem_of_nil].
  - destruct (step o s) as [s1|] eqn:Hs1; [|done].
    rewrite (IH _ Hrun), (step_users_None _ _ _ nm Hs1).
    rewrite not_elem_of_cons.
    split; [intros [[? ?] ?]|intros [? [? ?]]]; repeat split; done.
Qed.

(** Two users of a reachable ledger with the same name are the same user. *)
Lemma one_account_per_name s a b u v :
  reachable s → mem s !! a = Some u → mem s !! b = Some v →
  name_ u = name_ v → a = b.
Proof.
  intros Hs Hu Hv Hn. destruct (ledger_inv_reachable _ Hs) as [_ Howns].
  pose proof (Howns _ _ Hu) as Ha. pose proof (Howns _ _ Hv) as Hb.
  rewrite Hn in Ha. congruence.
Qed.

End names.

(** ** Cursors *)

Section cursors.
Import schedule.

Lemma wait_next_transaction_Some it (h : heap) u t :
  h !! user_ it = Some u → transactions_ u !! index_ it = Some t →
  wait_next_transaction it h = Some (t, mk_iterator (user_ it) (S (index_ it))).
Proof. intros Hu Ht. unfold wait_next_transaction. by rewrite Hu, Ht. Qed.

Lemma wait_next_transaction_inv it (h : heap) t it' :
  wait_next_transaction it h = Some (t, it') →
  ∃ u, h !! user_ it = Some u ∧ transactions_ u !! index_ it = Some t
       ∧ it' = mk_iterator (user_ it) (S (index_ it)).
Proof.
  unfold wait_next_transaction. destruct (h !! user_ it) as [u|]; [|done].
  destruct (transactions_ u !! index_ it) as [t'|] eqn:Ht; [|done].
  intros [= <- <-]. by exists u.
Qed.

(** The call blocks exactly when the cursor is at or past the end. *)
Lemma wait_next_transaction_None it (h : heap) u :
  h !! user_ it = Some u →
  wait_next_transaction it h = None
  ↔ (length (transactions_ u) ≤ index_ it)%nat.
Proof.
  intros Hu. unfold wait_next_transaction. rewrite Hu.
  destruct (transactions_ u !! index_ it) as [t|] eqn:Ht.
  - apply lookup_lt_Some in Ht. split; [done|lia].
  - apply lookup_ge_None in Ht. done.
Qed.

(** What the calls that returned have delivered is a stretch of the log
    that starts where the cursor started. *)
Lemma deliver_sound evs s a i u ts it' s' :
  mem s !! a = Some u →
  deliver evs s (mk_iterator a i) = Some (ts, it', s') →
  ∃ u', mem s' !! a = Some u'
        ∧ transactions_ u `prefix_of` transactions_ u'
        ∧ it' = mk_iterator a (i + length ts)
        ∧ ts = take (length ts) (drop i (transactions_ u')).
Proof.
  revert s i u ts. induction evs as [|[|o] evs IH]; intros s i u ts Hu Hd.
  - simpl in Hd. simplify_eq. exists u. simpl.
    split; [done|]. split; [done|]. split; [by rewrite Nat.add_0_r|done].
  - simpl in Hd.
    destruct (wait_next_transaction (mk_iterator a i) (mem s))
      as [[cur it1]|] eqn:Hw.
    + apply wait_next_transaction_inv in Hw as (u0 & Hu0 & Hcur & ->).
      simpl in *. simplify_eq.
      destruct (deliver evs s (mk_iterator a (S i))) as [[[ts1 it2] s2]|]
        eqn:Hd1; [|done].
      simplify_eq.
      destruct (IH _ _ _ _ Hu Hd1) as (u' & Hu' & Hp & -> & Hts).
      exists u'. split; [done|]. split; [done|]. simpl.
      split; [f_equal; lia|].
      assert (transactions_ u' !! i = Some cur) as Hi
        by (by eapply prefix_lookup_Some).
      rewrite (drop_S _ _ _ Hi). simpl. by f_equal.
    + by eapply IH.
  - simpl in Hd. destruct (step o s) as [s1|] eqn:Hs1; [|done].
    destruct (step_extends _ _ _ Hs1) as [_ Hm].
    destruct (Hm _ _ Hu) as (u1 & Hu1 & _ & Hp1).
    destruct (IH _ _ _ _ Hu1 Hd) as (u' & Hu' & Hp & -> & Hts).
    exists u'. split; [done|]. split; [by etrans|]. done.
Qed.

(** [n] calls in a row return the next [n] entries when the log has them. *)
Lemma deliver_successive n s a i u :
  mem s !! a = Some u →
  (i + n ≤ length (transactions_ u))%nat →
  deliver (replicate n ev_self) s (mk_iterator a i)
  = Some (take n (drop i (transactions_ u)), mk_iterator a (i + n), s).
Proof.
  intros Hu. revert i. induction n as [|n IH]; intros i Hlen.
  - simpl. by rewrite Nat.add_0_r.
  - simpl.
    assert (is_Some (transactions_ u !! i)) as [t Ht]
      by (apply lookup_lt_is_Some_2; lia).
    rewrite (wait_next_transaction_Some (mk_iterator a i) _ u t) by done.
    simpl. rewrite IH by lia. rewrite (drop_S _ _ _ Ht). simpl.
    by rewrite Nat.add_succ_r.
Qed.

End cursors.

(** ** The [transactions] command *)

Section transactions_command.
Import client_connection.

(** The loop from [st] over [j] indices prints the entries at those
    indices. *)
Lemma print_loop {A} (f : transaction → A) (l : list transaction) (st j : nat) :
  (st + j ≤ length l)%nat →
  omap (λ i, f <$> l !! Z.to_nat i) (seqZ (Z.of_nat st) (Z.of_nat j))
  = f <$> take j (drop st l).
Proof.
  induction j as [|j IH]; intros Hlen; [done|].
  rewrite seqZ_S, omap_app, IH by lia.
  assert (is_Some (l !! (st + j)%nat)) as [x Hx]
    by (apply lookup_lt_is_Some_2; lia).
  rewrite (take_S_r _ _ x) by (by rewrite lookup_drop).
  rewrite fmap_app. f_equal. simpl.
  replace (Z.to_nat (Z.of_nat st + Z.of_nat j)) with (st + j)%nat by lia.
  by rewrite Hx.
Qed.

Lemma to_int_sub size n :
  Size.to_int (Size.sub size n) = Int.wrap (size - n).
Proof.
  unfold Size.to_int, Size.sub, Size.wrap, Size.modulus. apply wrap_congr.
  pose proof (Z.div_mod (size - n) 18446744073709551616).
  replace ((size - n) mod 18446744073709551616 - (size - n))
    with ((- ((size - n) / 18446744073709551616) * 4294967296) * 4294967296)
    by lia.
  apply Z_mod_mult.
Qed.

(** As long as the count exceeds the size by at most 2^31, [start] is the
    size minus the count, clamped at 0. *)
Lemma start_index_near size n :
  0 ≤ size ≤ Int.max_int → 0 ≤ n ≤ size + 2147483648 →
  start_index size n = Z.max (size - n) 0.
Proof.
  unfold Int.max_int. intros Hs Hn. unfold start_index.
  rewrite to_int_sub, wrap_id; [done|].
  unfold Int.in_range, Int.min_int, Int.max_int. lia.
Qed.

(** One more and the converted difference is the largest [int]: [start]
    is then past the end of every log. *)
Lemma start_index_far size :
  0 ≤ size ≤ Int.max_int →
  start_index size (size + 2147483649) = Int.max_int.
Proof.
  intros Hs. unfold start_index. rewrite to_int_sub.
  replace (size - (size + 2147483649)) with (-2147483649) by lia.
  reflexivity.
Qed.

Lemma get_transactions_visitor_near h n transactions balance :
  Z.of_nat (length transactions) ≤ Int.max_int →
  0 ≤ n ≤ Z.of_nat (length transactions) + 2147483648 →
  get_transactions_visitor h n transactions balance
  = [header]
    ++ (format_transaction h
          <$> drop (length transactions - Z.to_nat n) transactions)
    ++ [footer balance].
Proof.
  intros Hs Hn. unfold get_transactions_visitor.
  rewrite start_index_near by lia.
  unfold Size.to_int. rewrite wrap_id
    by (unfold Int.in_range, Int.min_int, Int.max_int in *; lia).
  do 2 f_equal.
  set (st := (length transactions - Z.to_nat n)%nat).
  replace (Z.max (Z.of_nat (length transactions) - n) 0)
    with (Z.of_nat st) by lia.
  replace (Z.of_nat (length transactions) - Z.of_nat st)
    with (Z.of_nat (length transactions - st)) by lia.
  rewrite print_loop by lia.
  rewrite take_ge; [done|]. rewrite length_drop. lia.
Qed.

(** At that count nothing of the log is printed, whatever its length. *)
Lemma get_transactions_visitor_far h transactions balance :
  Z.of_nat (length transactions) ≤ Int.max_int →
  get_transactions_visitor h
    (Z.of_nat (length transactions) + 2147483649) transactions balance
  = [header; footer balance].
Proof.
  intros Hs. unfold get_transactions_visitor.
  rewrite start_index_far by lia.
  unfold Size.to_int. rewrite wrap_id
    by (unfold Int.in_range, Int.min_int, Int.max_int in *; lia).
  by rewrite seqZ_nil by lia.
Qed.

End transactions_command.

(** * The properties of the specification *)

Section balances.
Import bank_test.

(** C1, as stated, fails: when 21474836 accounts have each transferred
    their opening 100 to one account, the deltas of that account's log
    add up to 2147483700 and its balance reads -2147483596; a snapshot
    hands exactly this log and this balance to its visitor, and the replay
    of the tests does not end at the balance. *)
Lemma pooled_balance_not_sum :
  ∃ s u, run (pool overflow_rounds) init = Some s
         ∧ mem s !! 0%nat = Some u
         ∧ balance_ u = -2147483596
         ∧ sum_deltas (transactions_ u) = 2147483700
         ∧ balance_ u ≠ sum_deltas (transactions_ u)
         ∧ snapshot_transactions 0 (λ ts b, (ts, b)) (mem s)
           = Some ((transactions_ u, balance_ u),
                   mk_iterator 0 (length (transactions_ u)))
         ∧ replay_visitor (transactions_ u) (balance_ u) = false.
Proof.
  destruct pool_overflow as (s & u & v & Hrun & Hu & _ & Hb & Hsum).
  exists s, u. split; [exact Hrun|]. clear Hrun.
  split; [exact Hu|]. split; [exact Hb|]. split; [exact Hsum|].
  split; [rewrite Hb, Hsum; lia|].
  split; [unfold snapshot_transactions; rewrite Hu; reflexivity|].
  apply bool_decide_eq_false_2. intros Hreplay.
  apply real_balance_xts_nonneg in Hreplay. rewrite Hb in Hreplay. lia.
Qed.

(** C1 (amended). In every ledger reached by account creations and
    transfers, whatever their outcome, that holds at most 21474836
    accounts, the balance of every account equals the sum of
    [balance_delta_xts] over its log; and the log and the balance that a
    snapshot hands to its visitor are such that the replay of the deltas,
    as the tests run it, passes and ends at that balance exactly. *)
Theorem balance_replays_log s :
  reachable s →
  Z.of_nat (length (mem s)) ≤ max_accounts →
  (∀ a u, mem s !! a = Some u →
          balance_ u = sum_deltas (transactions_ u))
  ∧ (∀ a log bal it,
        snapshot_transactions a (λ ts b, (ts, b)) (mem s)
        = Some ((log, bal), it) →
        bal = sum_deltas log
        ∧ real_balance_xts log = Some bal
        ∧ replay_visitor log bal = true).
Proof.
  intros Hs Hn. split.
  - intros a u Hu. by eapply balance_exact_sum.
  - intros a log bal it. unfold snapshot_transactions.
    destruct (mem s !! a) as [u|] eqn:Hu; [|done].
    intros [= <- <- <-].
    pose proof (replay_inv_reachable _ _ _ Hs Hn Hu) as Hreplay.
    split; [by eapply balance_exact_sum|]. split; [done|].
    by apply bool_decide_eq_true_2.
Qed.

Lemma balance_replays_log_witness :
  reachable simple_transfer
  ∧ Z.of_nat (length (mem simple_transfer)) ≤ max_accounts
  ∧ (∀ a u, mem simple_transfer !! a = Some u →
            balance_ u = sum_deltas (transactions_ u))
  ∧ (∀ a log bal it,
        snapshot_transactions a (λ ts b, (ts, b)) (mem simple_transfer)
        = Some ((log, bal), it) →
        bal = sum_deltas log
        ∧ real_balance_xts log = Some bal
        ∧ replay_visitor log bal = true).
Proof.
  assert (reachable simple_transfer) as Hs
    by (exists simple_transfer_ops; reflexivity).
  assert (Z.of_nat (length (mem simple_transfer)) ≤ max_accounts) as Hn
    by (vm_compute; discriminate).
  split; [exact Hs|]. split; [exact Hn|].
  exact (balance_replays_log simple_transfer Hs Hn).
Defined.

(** C2, as stated, fails: when 21474836 accounts have each transferred
    their opening 100 to one account, that account holds 2147483700 units,
    which is above the largest [int], and its balance reads -2147483596. *)
Lemma pooled_balance_negative :
  ∃ s u, run (pool overflow_rounds) init = Some s
         ∧ Z.of_nat (length (mem s)) = 21474837
         ∧ mem s !! 0%nat = Some u
         ∧ balance_ u = -2147483596.
Proof.
  destruct (pool_run overflow_rounds) as (s & Hrun & [Hlen (u & Hu & Hb) _]).
  exists s, u. split; [exact Hrun|]. split.
  { rewrite Hlen. unfold overflow_rounds, max_accounts. lia. }
  split; [exact Hu|]. rewrite Hb.
  unfold overflow_rounds, max_accounts. rewrite Z2Nat.id by lia. reflexivity.
Qed.

(** C2 (amended). In every ledger reached by account creations and
    transfers that holds at most 21474836 accounts, the balance of every
    account is at least 0. *)
Theorem balance_never_negative s a u :
  reachable s →
  Z.of_nat (length (mem s)) ≤ max_accounts →
  mem s !! a = Some u →
  0 ≤ balance_ u.
Proof.
  intros Hs Hn Hu. by eapply (funds_nonneg _ (funds_inv_reachable _ Hs Hn)).
Qed.

Lemma balance_never_negative_witness :
  reachable simple_transfer
  ∧ Z.of_nat (length (mem simple_transfer)) ≤ max_accounts
  ∧ mem simple_transfer !! 0%nat
    = Some (mk_user "Alice" 60
              [mk_transaction None 100 "Initial deposit for Alice";
               mk_transaction (Some 1%nat) (-40) "Test transfer"] 2)
  ∧ 0 ≤ 60.
Proof.
  assert (reachable simple_transfer) as Hs
    by (exists simple_transfer_ops; reflexivity).
  assert (Z.of_nat (length (mem simple_transfer)) ≤ max_accounts) as Hn
    by (vm_compute; discriminate).
  assert (mem simple_transfer !! 0%nat
          = Some (mk_user "Alice" 60
                    [mk_transaction None 100 "Initial deposit for Alice";
                     mk_transaction (Some 1%nat) (-40) "Test transfer"] 2))
    as Hu by reflexivity.
  split; [exact Hs|]. split; [exact Hn|]. split; [exact Hu|].
  exact (balance_never_negative simple_transfer 0%nat _ Hs Hn Hu).
Defined.

End balances.

Section transfers.

(** C3, as stated, fails: with 21474837 accounts, the first holding
    2147483600 units and the last its opening 100, the last transfers 100
    to the first; the accounts differ, the amount is not negative and the
    source holds it, the call returns, yet the destination's balance does
    not go up by 100 but becomes -2147483596. *)
Lemma transfer_overflows_destination :
  ∃ s u v h' v',
    run (pool (Nat.pred overflow_rounds) ++ [open_account overflow_rounds])
        init = Some s
    ∧ mem s !! overflow_rounds = Some u ∧ mem s !! 0%nat = Some v
    ∧ overflow_rounds ≠ 0%nat ∧ 0 ≤ 100 ∧ 100 ≤ balance_ u
    ∧ balance_ v = 2147483600
    ∧ transfer overflow_rounds 0 100 "pool" (mem s) = Some (h', returned)
    ∧ h' !! 0%nat = Some v' ∧ balance_ v' = -2147483596.
Proof.
  assert (∃ k, S k = overflow_rounds ∧ Z.of_nat k = 21474835)
    as (k & Hk & Hz).
  { exists (Z.to_nat 21474835). unfold overflow_rounds, max_accounts. lia. }
  rewrite <- Hk. change (Nat.pred (S k)) with k. clear Hk.
  destruct (pool_open_run k) as (s & Hrun & Ho).
  destruct (opened_pay _ _ Ho) as (s2 & _ & Ht & [_ (v' & Hv' & Hb') _]).
  destruct Ho as [_ (v & Hv & Hb) Hlast _].
  exists s, (user_ctor (pretty (S k))), v, (mem s2), v'.
  split; [exact Hrun|]. split; [exact Hlast|]. split; [exact Hv|].
  split; [done|]. split; [done|]. split; [done|]. split.
  { rewrite Hb, Hz. reflexivity. }
  split; [exact Ht|]. split; [exact Hv'|].
  rewrite Hb'. replace (Z.of_nat (S k)) with 21474836 by lia. reflexivity.
Qed.

(** C3 (amended). For every call [transfer(counterparty, amount, comment)]
    with source and destination distinct, amount at least 0, source balance
    at least the amount, and destination balance plus amount at most
    2147483647, the call returns; the source's balance goes down by the
    amount and exactly one transaction (counterparty = destination,
    delta = -amount, comment) is appended to its log; the destination's
    balance goes up by the amount and exactly one transaction
    (counterparty = source, delta = +amount, comment) is appended to its
    log; the names stay, and no other account changes. *)
Theorem transfer_moves_amount (h : heap) this cpty amount c u v :
  h !! this = Some u → h !! cpty = Some v →
  Int.in_range (balance_ u) → Int.in_range (balance_ v) →
  this ≠ cpty → 0 ≤ amount → amount ≤ balance_ u →
  balance_ v + amount ≤ Int.max_int →
  ∃ h' u' v',
    transfer this cpty amount c h = Some (h', returned)
    ∧ h' !! this = Some u' ∧ h' !! cpty = Some v'
    ∧ balance_ u' = balance_ u - amount
    ∧ transactions_ u'
      = transactions_ u ++ [mk_transaction (Some cpty) (- amount) c]
    ∧ balance_ v' = balance_ v + amount
    ∧ transactions_ v'
      = transactions_ v ++ [mk_transaction (Some this) amount c]
    ∧ name_ u' = name_ u ∧ name_ v' = name_ v
    ∧ length h' = length h
    ∧ (∀ a, a ≠ this → a ≠ cpty → h' !! a = h !! a).
Proof.
  intros Hu Hv [_ Hru] [Hrv _] Hne Hpos Hle Hmax.
  assert (Int.sub (balance_ u) amount = balance_ u - amount) as Hsub
    by (apply sub_exact; lia).
  assert (Int.neg amount = - amount) as Hneg by (apply neg_exact; lia).
  assert (Int.add (balance_ v) amount = balance_ v + amount) as Hadd.
  { apply wrap_id. unfold Int.in_range, Int.min_int in *. lia. }
  destruct (transfer_through this cpty amount c h u v)
    as (h' & Ht & Hlen & Hd & Hc & Hoth); [done|done|done|done|lia|].
  exists h', (debited cpty amount c u), (credited this amount c v).
  split; [exact Ht|]. split; [exact Hd|]. split; [exact Hc|]. simpl.
  rewrite Hsub, Hneg, Hadd. done.
Qed.

Lemma transfer_moves_amount_witness :
  ∃ h,
    run [op_get_or_create_user "Alice"; op_get_or_create_user "Bob"] init
    = Some (mk_state h (<["Bob" := 1%nat]> (<["Alice" := 0%nat]> ∅)))
    ∧ ∃ h' u' v',
        transfer 0 1 40 "Test transfer" h = Some (h', returned)
        ∧ h' !! 0%nat = Some u' ∧ h' !! 1%nat = Some v'
        ∧ balance_ u' = 100 - 40
        ∧ transactions_ u'
          = [mk_transaction None 100 "Initial deposit for Alice"]
            ++ [mk_transaction (Some 1%nat) (- 40) "Test transfer"]
        ∧ balance_ v' = 100 + 40
        ∧ transactions_ v'
          = [mk_transaction None 100 "Initial deposit for Bob"]
            ++ [mk_transaction (Some 0%nat) 40 "Test transfer"]
        ∧ name_ u' = "Alice" ∧ name_ v' = "Bob"
        ∧ length h' = length h
        ∧ (∀ a, a ≠ 0%nat → a ≠ 1%nat → h' !! a = h !! a).
Proof.
  exists [user_ctor "Alice"; user_ctor "Bob"]. split; [reflexivity|].
  apply (transfer_moves_amount [user_ctor "Alice"; user_ctor "Bob"] 0 1 40
           "Test transfer" (user_ctor "Alice") (user_ctor "Bob"));
    try reflexivity; try (vm_compute; split; discriminate);
    try discriminate.
Defined.

End transfers.

Section failures.

(** The test of line 43, whatever the balance: the difference is the one
    the code computes in [int]. *)
Lemma transfer_no_funds_iff (h : heap) this cpty amount c u v :
  h !! this = Some u → h !! cpty = Some v →
  (∃ h' m, transfer this cpty amount c h
           = Some (h', thrown (not_enough_funds_error m)))
  ↔ this ≠ cpty ∧ 0 ≤ amount ∧ Int.sub (balance_ u) amount < 0.
Proof.
  intros Hu Hv.
  pose proof (transfer_cases this cpty amount c h u v Hu Hv) as Hc.
  inversion Hc as [? Heq| ? ? Heq| ? ? ? Heq|h' ? ? ? ? ? ? ? Heq]; split.
  - intros (? & ? & ?). congruence.
  - intros (? & _). done.
  - intros (? & ? & ?). congruence.
  - intros (_ & ? & _). lia.
  - done.
  - intros _. eauto.
  - intros (? & ? & ?). congruence.
  - intros (_ & _ & ?). lia.
Qed.

(** C4, as stated, fails: in the ledger in which 21474836 accounts have
    paid their opening 100 to account 0, the balance of account 0 reads
    -2147483596; it transfers 100 to account 1, a different account and an
    amount that is not negative; the source balance minus the amount is
    below zero, yet the call does not fail with [not_enough_funds_error]:
    it returns. *)
Lemma negative_source_pays_out :
  ∃ s u v h',
    run (pool overflow_rounds) init = Some s
    ∧ mem s !! 0%nat = Some u ∧ mem s !! 1%nat = Some v
    ∧ balance_ u = -2147483596
    ∧ 0%nat ≠ 1%nat ∧ ¬ (100 < 0) ∧ balance_ u - 100 < 0
    ∧ transfer 0 1 100 "pay" (mem s) = Some (h', returned).
Proof.
  destruct pool_overflow as (s & u & v & Hrun & Hu & Hv & Hb & _).
  destruct (transfer_through 0 1 100 "pay" (mem s) u v Hu Hv)
    as (h' & Ht & _); [lia|lia| |].
  { clear Hrun. rewrite Hb. vm_compute. discriminate. }
  exists s, u, v, h'. split; [exact Hrun|]. clear Hrun.
  split; [exact Hu|]. split; [exact Hv|]. split; [exact Hb|].
  split; [lia|]. split; [lia|]. split; [rewrite Hb; lia|exact Ht].
Qed.

(** C4 (amended). For every call in which the source balance minus the
    amount is not below -2147483648, so for every source balance that is
    not negative: the transfer fails with [invalid_transfer_error] exactly
    when source and destination are the same account or the amount is
    negative; otherwise it fails with [not_enough_funds_error] exactly when
    the source balance minus the amount is below zero, and the message
    then carries the balance and the amount; and a transfer that fails in
    either way leaves the whole heap, so both balances and both logs, as
    it was. *)
Theorem transfer_failures (h : heap) this cpty amount c u v :
  h !! this = Some u → h !! cpty = Some v →
  Int.in_range amount → Int.in_range (balance_ u) →
  Int.min_int ≤ balance_ u - amount →
  ∃ h' r,
    transfer this cpty amount c h = Some (h', r)
    ∧ ((∃ m, r = thrown (invalid_transfer_error m))
       ↔ this = cpty ∨ amount < 0)
    ∧ ((∃ m, r = thrown (not_enough_funds_error m))
       ↔ ¬ (this = cpty ∨ amount < 0) ∧ balance_ u - amount < 0)
    ∧ (∀ m, r = thrown (not_enough_funds_error m) →
            m = "Not enough funds: " +:+ pretty (balance_ u)
                +:+ " XTS available, " +:+ pretty amount
                +:+ " XTS requested")
    ∧ (∀ e, r = thrown e → h' = h).
Proof.
  intros Hu Hv [_ Hamax] [_ Hbmax] Hdiff.
  assert (0 ≤ amount → Int.sub (balance_ u) amount = balance_ u - amount)
    as Hexact.
  { intros Hpos. apply wrap_id.
    unfold Int.in_range, Int.min_int, Int.max_int in *. lia. }
  pose proof (transfer_cases this cpty amount c h u v Hu Hv) as Hc.
  inversion Hc as [Hself Heq|Hne Hneg Heq|Hne Hpos Hlow Heq
                   |h' Hne Hpos Hok Hlen Hd Hcr Hoth Heq];
    eexists _, _; (split; [reflexivity|]).
  - split; [split; [tauto|eauto]|].
    assert (¬ ∃ m, thrown (invalid_transfer_error "Self-transfer")
                   = thrown (not_enough_funds_error m)) as Hno
      by (intros [m Hm]; discriminate).
    split; [tauto|]. split; [intros m Hm; discriminate|done].
  - split; [split; [intros _; right; lia|eauto]|].
    assert (¬ ∃ m, thrown (invalid_transfer_error
                             "Negative amount, you're lose:(")
                   = thrown (not_enough_funds_error m)) as Hno
      by (intros [m Hm]; discriminate).
    split; [tauto|]. split; [intros m Hm; discriminate|done].
  - rewrite Hexact in Hlow by done. split; [split|].
    + intros [m Hm]. discriminate.
    + intros [?|?]; [done|lia].
    + assert (∃ m, thrown (make_not_enough_funds_error (balance_ u) amount)
                   = thrown (not_enough_funds_error m)) as Hyes
        by (eexists; reflexivity).
      assert (¬ (this = cpty ∨ amount < 0)) as Hvalid
        by (intros [?|?]; [done|lia]).
      split; [tauto|]. split; [|done]. intros m [= <-]. reflexivity.
  - rewrite Hexact in Hok by done. split; [split|].
    + intros [m Hm]. discriminate.
    + intros [?|?]; [done|lia].
    + assert (¬ ∃ m, returned = thrown (not_enough_funds_error m)) as Hno'
        by (intros [m Hm]; discriminate).
      split; [split; [tauto|intros [_ ?]; lia]|].
      split; [intros m Hm; discriminate|intros e He; discriminate].
Qed.

Lemma transfer_failures_witness :
  ∃ h' r,
    transfer 0 1 101 "Test transfer" [user_ctor "Alice"; user_ctor "Bob"]
    = Some (h', r)
    ∧ ((∃ m, r = thrown (invalid_transfer_error m))
       ↔ 0%nat = 1%nat ∨ 101 < 0)
    ∧ ((∃ m, r = thrown (not_enough_funds_error m))
       ↔ ¬ (0%nat = 1%nat ∨ 101 < 0) ∧ 100 - 101 < 0)
    ∧ (∀ m, r = thrown (not_enough_funds_error m) →
            m = "Not enough funds: " +:+ pretty 100
                +:+ " XTS available, " +:+ pretty 101
                +:+ " XTS requested")
    ∧ (∀ e, r = thrown e → h' = [user_ctor "Alice"; user_ctor "Bob"]).
Proof.
  apply (transfer_failures [user_ctor "Alice"; user_ctor "Bob"] 0 1 101
           "Test transfer" (user_ctor "Alice") (user_ctor "Bob")).
  - reflexivity.
  - reflexivity.
  - vm_compute. split; discriminate.
  - vm_compute. split; discriminate.
  - vm_compute. discriminate.
Defined.

End failures.

Section ledger_lookup.

(** C5. When no call has looked a name up yet, [get_or_create_user]
    creates a user and returns it: it carries that name, its balance is 100
    and its log is the one opening transaction (no counterparty, +100).
    Whatever happens afterwards, every later call with the same name
    returns the address of that same user and changes nothing, the mapping
    included; and no two users of the ledger carry the same name. *)
Theorem get_or_create_user_once ops s nm :
  run ops init = Some s →
  op_get_or_create_user nm ∉ ops →
  ∃ s1 a u,
    get_or_create_user nm s = (s1, a)
    ∧ mem s !! a = None ∧ mem s1 !! a = Some u
    ∧ name_ u = nm ∧ balance_ u = 100
    ∧ transactions_ u
      = [mk_transaction None 100 ("Initial deposit for " +:+ nm)]
    ∧ ∀ ops' s2, run ops' s1 = Some s2 →
        get_or_create_user nm s2 = (s2, a)
        ∧ (∃ u2, mem s2 !! a = Some u2 ∧ name_ u2 = nm)
        ∧ (∀ b c v w, mem s2 !! b = Some v → mem s2 !! c = Some w →
                      name_ v = name_ w → b = c).
Proof.
  intros Hrun Hfirst.
  assert (users_ s !! nm = None) as Hnone.
  { apply (run_users_None _ _ _ nm Hrun). split; [done|exact Hfirst]. }
  rewrite (get_or_create_user_new _ _ Hnone).
  eexists _, _, (user_ctor nm). split; [reflexivity|]. simpl.
  split; [by apply lookup_ge_None|].
  split; [by rewrite lookup_app_r, Nat.sub_diag|].
  split; [done|]. split; [done|]. split; [done|].
  intros ops' s2 Hrun2.
  assert (run (ops ++ op_get_or_create_user nm :: ops') init = Some s2)
    as Hall.
  { rewrite run_app, Hrun. simpl.
    by rewrite (get_or_create_user_new _ _ Hnone). }
  assert (reachable s2) as Hs2 by (by eexists).
  split; [|split].
  - apply get_or_create_user_old.
    apply (extends_users _ _ (run_extends _ _ _ Hrun2)). simpl.
    apply lookup_insert_eq.
  - destruct (extends_mem _ _ (run_extends _ _ _ Hrun2)
                (length (mem s)) (user_ctor nm)) as (u2 & Hu2 & Hn2 & _).
    { simpl. by rewrite lookup_app_r, Nat.sub_diag. }
    by exists u2.
  - intros b c v w. by apply one_account_per_name.
Qed.

Lemma get_or_create_user_once_witness :
  run [op_get_or_create_user "Alice"] init
  = Some (mk_state [user_ctor "Alice"] (<["Alice" := 0%nat]> ∅))
  ∧ (op_get_or_create_user "Bob" ∉ [op_get_or_create_user "Alice"])
  ∧ ∃ s1 a u,
      get_or_create_user "Bob"
        (mk_state [user_ctor "Alice"] (<["Alice" := 0%nat]> ∅)) = (s1, a)
      ∧ [user_ctor "Alice"] !! a = None ∧ mem s1 !! a = Some u
      ∧ name_ u = "Bob" ∧ balance_ u = 100
      ∧ transactions_ u
        = [mk_transaction None 100 ("Initial deposit for " +:+ "Bob")]
      ∧ ∀ ops' s2, run ops' s1 = Some s2 →
          get_or_create_user "Bob" s2 = (s2, a)
          ∧ (∃ u2, mem s2 !! a = Some u2 ∧ name_ u2 = "Bob")
          ∧ (∀ b c v w, mem s2 !! b = Some v → mem s2 !! c = Some w →
                        name_ v = name_ w → b = c).
Proof.
  assert (run [op_get_or_create_user "Alice"] init
          = Some (mk_state [user_ctor "Alice"] (<["Alice" := 0%nat]> ∅)))
    as Hrun by reflexivity.
  assert (op_get_or_create_user "Bob" ∉ [op_get_or_create_user "Alice"])
    as Hfirst.
  { intros Hin. apply list_elem_of_singleton in Hin. discriminate. }
  split; [exact Hrun|]. split; [exact Hfirst|].
  exact (get_or_create_user_once [op_get_or_create_user "Alice"] _ "Bob"
           Hrun Hfirst).
Defined.

End ledger_lookup.

Section cursor_claim.
Import schedule.

(** C6. A cursor at position [i] of an account is polled while other
    threads create accounts and transfer.  The calls that return deliver,
    in order and one each, the entries of the account's log at the indices
    [i], [i + 1], ...: none twice and none skipped, and the cursor ends
    at [i] plus the number of entries delivered.  When the log holds [n]
    entries from [i] on, [n] calls in a row all return, with exactly those
    entries.  A call that returns moves the cursor forward by one, a call
    that is blocked leaves it where it is.  [user::monitor] and
    [snapshot_transactions] create the cursor at the length of the log, and
    such a cursor delivers what is appended from then on. *)
Theorem cursor_delivers_in_order s a i u :
  mem s !! a = Some u →
  (∀ t it', wait_next_transaction (mk_iterator a i) (mem s) = Some (t, it') →
            transactions_ u !! i = Some t ∧ it' = mk_iterator a (S i))
  ∧ (wait_next_transaction (mk_iterator a i) (mem s) = None
     ↔ (length (transactions_ u) ≤ i)%nat)
  ∧ (∀ evs ts it' s',
     deliver evs s (mk_iterator a i) = Some (ts, it', s') →
     ∃ u', mem s' !! a = Some u'
           ∧ it' = mk_iterator a (i + length ts)
           ∧ ts = take (length ts) (drop i (transactions_ u'))
           ∧ (∀ k t, ts !! k = Some t →
                     transactions_ u' !! (i + k)%nat = Some t))
  ∧ (∀ n, (i + n ≤ length (transactions_ u))%nat →
          deliver (replicate n ev_self) s (mk_iterator a i)
          = Some (take n (drop i (transactions_ u)),
                  mk_iterator a (i + n), s))
  ∧ monitor a (mem s) = Some (mk_iterator a (length (transactions_ u)))
  ∧ (∀ R (f : list transaction → Z → R),
       snapshot_transactions a f (mem s)
       = Some (f (transactions_ u) (balance_ u),
               mk_iterator a (length (transactions_ u))))
  ∧ (i = length (transactions_ u) →
     ∀ evs ts it' s',
       deliver evs s (mk_iterator a i) = Some (ts, it', s') →
       ∃ u' rest, mem s' !! a = Some u'
                  ∧ transactions_ u' = transactions_ u ++ rest
                  ∧ ts = take (length ts) rest).
Proof.
  intros Hu. split; [|split; [|split; [|split; [|split; [|split]]]]].
  - intros t it' Hw.
    apply wait_next_transaction_inv in Hw as (u0 & Hu0 & Ht & ->).
    simpl in *. by simplify_eq.
  - by apply (wait_next_transaction_None (mk_iterator a i)).
  - intros evs ts it' s' Hd.
    destruct (deliver_sound _ _ _ _ _ _ _ _ Hu Hd)
      as (u' & Hu' & _ & Hit & Hts).
    exists u'. split; [done|]. split; [done|]. split; [done|].
    intros k t Hk. rewrite Hts in Hk.
    apply lookup_take_Some in Hk as [Hk _]. by rewrite lookup_drop in Hk.
  - intros n Hn. by apply deliver_successive.
  - unfold monitor. by rewrite Hu.
  - intros R f. unfold snapshot_transactions. by rewrite Hu.
  - intros -> evs ts it' s' Hd.
    destruct (deliver_sound _ _ _ _ _ _ _ _ Hu Hd)
      as (u' & Hu' & [rest Hrest] & Hit & Hts).
    exists u', rest. split; [done|]. split; [done|].
    by rewrite Hrest, drop_app_length in Hts.
Qed.

End cursor_claim.

Lemma alice_bob_run :
  run [op_get_or_create_user "Alice"; op_get_or_create_user "Bob"] init
  = Some alice_bob.
Proof. reflexivity. Qed.

Section cursor_instance.
Import schedule.

(** The schedule of the test case on iterators: Alice pays Bob 40, Bob
    pays Alice 20, and a cursor taken on Alice before both is polled. *)
Lemma cursor_delivers_in_order_witness :
  mem alice_bob !! 0%nat = Some (user_ctor "Alice")
  ∧ ∃ s' u',
      deliver [ev_other (op_transfer 0 1 40 "Test transfer from Alice");
               ev_self; ev_self;
               ev_other (op_transfer 1 0 20 "Test transfer from Bob");
               ev_self]
              alice_bob (mk_iterator 0 1)
      = Some ([mk_transaction (Some 1%nat) (-40) "Test transfer from Alice";
               mk_transaction (Some 1%nat) 20 "Test transfer from Bob"],
              mk_iterator 0 3, s')
      ∧ mem s' !! 0%nat = Some u'
      ∧ [mk_transaction (Some 1%nat) (-40) "Test transfer from Alice";
         mk_transaction (Some 1%nat) 20 "Test transfer from Bob"]
        = take 2 (drop 1 (transactions_ u')).
Proof.
  assert (mem alice_bob !! 0%nat = Some (user_ctor "Alice")) as Hu
    by reflexivity.
  split; [exact Hu|].
  destruct (proj1 (proj2 (proj2
                     (cursor_delivers_in_order alice_bob 0 1 _ Hu)))
              [ev_other (op_transfer 0 1 40 "Test transfer from Alice");
               ev_self; ev_self;
               ev_other (op_transfer 1 0 20 "Test transfer from Bob");
               ev_self] _ _ _ eq_refl)
    as (u' & Hu' & _ & Hts & _).
  eexists _, u'. split; [reflexivity|]. split; [exact Hu'|exact Hts].
Defined.

End cursor_instance.

Section zero_amount.

(** C10, as stated, fails: in the ledger in which 21474836 accounts
    have paid their opening 100 to account 0, the balance of account 0
    reads -2147483596; accounts 0 and 1 are distinct, and a transfer of
    amount 0 from account 0 to account 1 does not succeed: it fails with
    [not_enough_funds_error] and leaves the heap as it was. *)
Lemma zero_transfer_refused :
  ∃ s u v,
    run (pool overflow_rounds) init = Some s
    ∧ mem s !! 0%nat = Some u ∧ mem s !! 1%nat = Some v
    ∧ 0%nat ≠ 1%nat ∧ balance_ u = -2147483596
    ∧ transfer 0 1 0 "nothing" (mem s)
      = Some (mem s, thrown (make_not_enough_funds_error (-2147483596) 0)).
Proof.
  destruct pool_overflow as (s & u & v & Hrun & Hu & Hv & Hb & _).
  exists s, u, v. split; [exact Hrun|]. clear Hrun.
  split; [exact Hu|]. split; [exact Hv|]. split; [lia|].
  split; [exact Hb|].
  rewrite (transfer_no_funds 0 1 0 "nothing" (mem s) u v Hu Hv).
  - by rewrite Hb.
  - lia.
  - lia.
  - rewrite Hb. vm_compute. reflexivity.
Qed.

(** C10 (amended). For every pair of distinct accounts whose source
    balance is not negative, a transfer of amount exactly 0 succeeds: both
    balances stay, each log gains one transaction with delta 0 and the
    given comment, [notify_all] is issued on both accounts, and a cursor
    that was blocked at the end of either log now gets that
    transaction. *)
Theorem zero_transfer (h : heap) this cpty c u v :
  h !! this = Some u → h !! cpty = Some v → this ≠ cpty →
  0 ≤ balance_ u ≤ Int.max_int → Int.in_range (balance_ v) →
  ∃ h' u' v',
    transfer this cpty 0 c h = Some (h', returned)
    ∧ h' !! this = Some u' ∧ h' !! cpty = Some v'
    ∧ balance_ u' = balance_ u ∧ balance_ v' = balance_ v
    ∧ transactions_ u' = transactions_ u ++ [mk_transaction (Some cpty) 0 c]
    ∧ transactions_ v' = transactions_ v ++ [mk_transaction (Some this) 0 c]
    ∧ cv_new_transaction_ u' = S (cv_new_transaction_ u)
    ∧ cv_new_transaction_ v' = S (cv_new_transaction_ v)
    ∧ wait_next_transaction
        (mk_iterator this (length (transactions_ u))) h = None
    ∧ wait_next_transaction
        (mk_iterator this (length (transactions_ u))) h'
      = Some (mk_transaction (Some cpty) 0 c,
              mk_iterator this (S (length (transactions_ u))))
    ∧ wait_next_transaction
        (mk_iterator cpty (length (transactions_ v))) h = None
    ∧ wait_next_transaction
        (mk_iterator cpty (length (transactions_ v))) h'
      = Some (mk_transaction (Some this) 0 c,
              mk_iterator cpty (S (length (transactions_ v)))).
Proof.
  intros Hu Hv Hne Hbu Hbv.
  assert (Int.sub (balance_ u) 0 = balance_ u) as Hsub
    by (rewrite sub_exact; unfold Int.max_int in *; lia).
  assert (Int.add (balance_ v) 0 = balance_ v) as Hadd
    by (unfold Int.add; rewrite Z.add_0_r; by apply wrap_id).
  destruct (transfer_through this cpty 0 c h u v)
    as (h' & Ht & Hlen & Hd & Hc & Hoth); [done|done|done|done|lia|].
  exists h', (debited cpty 0 c u), (credited this 0 c v).
  split; [exact Ht|]. split; [exact Hd|]. split; [exact Hc|]. simpl.
  rewrite Hsub, Hadd.
  split; [done|]. split; [done|]. split; [done|]. split; [done|].
  split; [done|]. split; [done|].
  split; [|split; [|split]].
  - apply (wait_next_transaction_None _ _ u); [done|]. simpl. lia.
  - unfold wait_next_transaction. simpl. rewrite Hd. simpl.
    by rewrite lookup_app_r, Nat.sub_diag.
  - apply (wait_next_transaction_None _ _ v); [done|]. simpl. lia.
  - unfold wait_next_transaction. simpl. rewrite Hc. simpl.
    by rewrite lookup_app_r, Nat.sub_diag.
Qed.

End zero_amount.

Lemma zero_transfer_witness :
  ∃ h' u' v',
    transfer 0 1 0 "nothing" (mem alice_bob) = Some (h', returned)
    ∧ h' !! 0%nat = Some u' ∧ h' !! 1%nat = Some v'
    ∧ balance_ u' = 100 ∧ balance_ v' = 100
    ∧ transactions_ u'
      = [alice_initial] ++ [mk_transaction (Some 1%nat) 0 "nothing"]
    ∧ transactions_ v'
      = [mk_transaction None 100 "Initial deposit for Bob"]
        ++ [mk_transaction (Some 0%nat) 0 "nothing"]
    ∧ cv_new_transaction_ u' = 2%nat
    ∧ cv_new_transaction_ v' = 2%nat
    ∧ wait_next_transaction (mk_iterator 0 1) (mem alice_bob) = None
    ∧ wait_next_transaction (mk_iterator 0 1) h'
      = Some (mk_transaction (Some 1%nat) 0 "nothing", mk_iterator 0 2)
    ∧ wait_next_transaction (mk_iterator 1 1) (mem alice_bob) = None
    ∧ wait_next_transaction (mk_iterator 1 1) h'
      = Some (mk_transaction (Some 0%nat) 0 "nothing", mk_iterator 1 2).
Proof.
  apply (zero_transfer (mem alice_bob) 0 1 "nothing"
           (user_ctor "Alice") (user_ctor "Bob")).
  - reflexivity.
  - reflexivity.
  - discriminate.
  - vm_compute. split; discriminate.
  - vm_compute. split; discriminate.
Defined.

(** ** The commands [transactions] and [monitor] *)

Section commands.
Import schedule client_connection.

(** C9 (code at the failing input).  Alice's log holds its one opening
    entry and the client asks for the last 2147483650: the difference 1 -
    2147483650 taken in [std::size_t] and converted to [int] is 2147483647,
    so [start] is past the end and no entry is printed, only the header
    and the footer. *)
Theorem transactions_huge_count_prints_no_entry :
  (transactions_ <$> mem alice_bob !! 0%nat) = Some [alice_initial]
  ∧ start_index 1 2147483650 = 2147483647
  ∧ get_transactions 2147483650 (mem alice_bob) (mk 0 [])
    = Some (mk 0 [header; footer 100]).
Proof. split; [reflexivity|]. split; reflexivity. Qed.

(** Up to 2^31 above the length of the log the command does print the
    last [n] entries, or all when there are fewer. *)
Lemma get_transactions_near n (h : heap) c u :
  h !! user_ c = Some u →
  Z.of_nat (length (transactions_ u)) ≤ Int.max_int →
  0 ≤ n ≤ Z.of_nat (length (transactions_ u)) + 2147483648 →
  get_transactions n h c
  = Some (mk (user_ c)
             (client_ c ++ [header]
              ++ (format_transaction h
                    <$> drop (length (transactions_ u) - Z.to_nat n)
                             (transactions_ u))
              ++ [footer (balance_ u)])).
Proof.
  intros Hu Hlen Hn. unfold get_transactions, snapshot_transactions.
  rewrite Hu. by rewrite get_transactions_visitor_near.
Qed.

Lemma run_monitor_app n evs1 evs2 s c pc :
  run_monitor n (evs1 ++ evs2) s c pc
  = match run_monitor n evs1 s c pc with
    | Some (s', c', pc') => run_monitor n evs2 s' c' pc'
    | None => None
    end.
Proof.
  revert s c pc. induction evs1 as [|[|o] evs1 IH]; intros s c pc; simpl.
  - done.
  - destruct (monitor_step n (mem s) c pc) as [[c' pc']|]; apply IH.
  - destruct (step o s) as [s'|]; [apply IH|done].
Qed.

(** Once the connection polls its cursor, the cursor never moves back. *)
Lemma run_monitor_cursor n evs s c it s' c' pc' :
  run_monitor n evs s c (pc_wait_next it) = Some (s', c', pc') →
  ∃ it', pc' = pc_wait_next it' ∧ bank.user_ it' = bank.user_ it
         ∧ (index_ it ≤ index_ it')%nat.
Proof.
  revert s c it. induction evs as [|[|o] evs IH]; intros s c it Hrun;
    simpl in Hrun.
  - simplify_eq. by exists it.
  - destruct (wait_next_transaction it (mem s)) as [[cur it1]|] eqn:Hw.
    + apply wait_next_transaction_inv in Hw as (u & _ & _ & ->).
      destruct (IH _ _ _ Hrun) as (it' & -> & Hus & Hle). simpl in *.
      exists it'. split; [done|]. split; [done|lia].
    + by eapply IH.
  - destruct (step o s) as [s1|]; [by eapply IH|done].
Qed.

Lemma run_monitor_others n ops s c pc :
  run_monitor n (ev_other <$> ops) s c pc
  = match run ops s with Some s' => Some (s', c, pc) | None => None end.
Proof.
  revert s. induction ops as [|o ops IH]; intros s; simpl; [done|].
  destruct (step o s) as [s1|]; [apply IH|done].
Qed.

(** The window of [monitor]: what other threads append to the account
    between the snapshot and the call of [user::monitor] is not in the
    printed snapshot, and the cursor starts after it. *)
Lemma monitor_window n ops s s1 c u u1 :
  mem s !! user_ c = Some u →
  run ops s = Some s1 →
  mem s1 !! user_ c = Some u1 →
  run_monitor n ([ev_self] ++ (ev_other <$> ops) ++ [ev_self]) s c
              pc_get_transactions
  = Some (s1,
          mk (user_ c)
             (client_ c
              ++ get_transactions_visitor (mem s) n (transactions_ u)
                                          (balance_ u)),
          pc_wait_next (mk_iterator (user_ c) (length (transactions_ u1)))).
Proof.
  intros Hu Hrun Hu1.
  rewrite run_monitor_app. simpl.
  unfold get_transactions, snapshot_transactions. rewrite Hu.
  rewrite run_monitor_app, run_monitor_others, Hrun. simpl.
  unfold bank.monitor. simpl. by rewrite Hu1.
Qed.

(** The cursor that the snapshot returns, polled under the same
    schedule, delivers both payments. *)
Lemma snapshot_cursor_delivers :
  ∃ lines s',
    snapshot_transactions 0 (get_transactions_visitor (mem alice_bob) 10)
                          (mem alice_bob)
    = Some (lines, mk_iterator 0 1)
    ∧ deliver [ev_other (op_transfer 1 0 10 "x");
               ev_other (op_transfer 1 0 5 "y"); ev_self; ev_self]
              alice_bob (mk_iterator 0 1)
      = Some ([bob_pays_10; bob_pays_5], mk_iterator 0 3, s').
Proof. eexists _, _. split; reflexivity. Qed.

(** C8 (code at the failing schedule).  The snapshot shows Alice's log of
    one entry and the balance 100; Bob's payment of 10 is appended next;
    then the connection takes its cursor, at position 2, and what it pushes
    is Bob's later payment of 5.  The payment of 10 is in the log at index
    1 and is never written to the client: the cursor is past it and, along
    every continuation of the schedule, stays past it. *)
Theorem monitor_skips_transaction :
  ∃ s c,
    run_monitor 10 lost_update alice_bob (mk 0 []) pc_get_transactions
    = Some (s, c, pc_wait_next (mk_iterator 0 3))
    ∧ (transactions_ <$> mem s !! 0%nat)
      = Some [alice_initial; bob_pays_10; bob_pays_5]
    ∧ client_ c = [header; format_transaction (mem s) alice_initial;
                   footer 100; format_transaction (mem s) bob_pays_5]
    ∧ (format_transaction (mem s) bob_pays_10 ∉ client_ c)
    ∧ ∀ evs s' c' pc',
        run_monitor 10 (lost_update ++ evs) alice_bob (mk 0 [])
                    pc_get_transactions = Some (s', c', pc') →
        ∃ it', pc' = pc_wait_next it' ∧ (3 ≤ index_ it')%nat.
Proof.
  eexists _, _. split; [reflexivity|]. split; [reflexivity|].
  split; [reflexivity|]. split.
  - apply (bool_decide_eq_false_1 _). reflexivity.
  - intros evs s' c' pc' Hrun. rewrite run_monitor_app in Hrun.
    change (run_monitor 10 lost_update alice_bob (mk 0 [])
              pc_get_transactions)
      with (Some (default alice_bob (run [op_transfer 1 0 10 "x";
                                          op_transfer 1 0 5 "y"] alice_bob),
                  mk 0 [header;
                        format_transaction (mem alice_bob) alice_initial;
                        footer 100;
                        format_transaction (mem alice_bob) bob_pays_5],
                  pc_wait_next (mk_iterator 0 3))) in Hrun.
    destruct (run_monitor_cursor _ _ _ _ _ _ _ _ Hrun) as (it' & -> & _ & ?).
    by exists it'.
Qed.

End commands.

(** * Further properties of the code *)

(** ** The logs of a reachable ledger *)

Section logs.

(** X1. In every reachable ledger, [notify_all] has been issued on an
    account's condition variable once for every entry of its log: nothing
    is appended without waking the waiters. *)
Theorem every_append_notified s a u :
  reachable s → mem s !! a = Some u →
  cv_new_transaction_ u = length (transactions_ u).
Proof.
  intros Hs. revert a u. revert s Hs.
  apply (reachable_users
           (λ u, cv_new_transaction_ u = length (transactions_ u))).
  - done.
  - intros cpty amount c u Hu. simpl. rewrite length_app, Hu. simpl. lia.
  - intros this amount c v Hv. simpl. rewrite length_app, Hv. simpl. lia.
Qed.

Lemma every_append_notified_witness :
  reachable simple_transfer
  ∧ mem simple_transfer !! 1%nat
    = Some (mk_user "Bob" 140
              [mk_transaction None 100 "Initial deposit for Bob";
               mk_transaction (Some 0%nat) 40 "Test transfer"] 2)
  ∧ 2%nat = length [mk_transaction None 100 "Initial deposit for Bob";
                    mk_transaction (Some 0%nat) 40 "Test transfer"].
Proof.
  assert (reachable simple_transfer) as Hs
    by (exists simple_transfer_ops; reflexivity).
  assert (mem simple_transfer !! 1%nat
          = Some (mk_user "Bob" 140
                    [mk_transaction None 100 "Initial deposit for Bob";
                     mk_transaction (Some 0%nat) 40 "Test transfer"] 2))
    as Hu by reflexivity.
  split; [exact Hs|]. split; [exact Hu|].
  exact (every_append_notified simple_transfer 1%nat _ Hs Hu).
Defined.

Lemma transfer_entry_mono (h h' : heap) a t :
  (∀ b, is_Some (h !! b) → is_Some (h' !! b)) →
  transfer_entry h a t → transfer_entry h' a t.
Proof. intros Hm (b & ? & ? & ?). exists b. auto. Qed.

Lemma log_shape_step o s s' :
  log_shape s → step o s = Some s' → log_shape s'.
Proof.
  intros Hinv Hstep.
  assert (∀ b, is_Some (mem s !! b) → is_Some (mem s' !! b)) as Hmono.
  { intros b [w Hw].
    destruct (extends_mem _ _ (step_extends _ _ _ Hstep) _ _ Hw)
      as (w' & -> & _). done. }
  destruct o as [nm|this cpty amount c].
  - rewrite step_get_or_create in Hstep. injection Hstep as <-.
    revert Hmono. unfold get_or_create_user.
    destruct (users_ s !! nm); [done|]. unfold log_shape. simpl.
    intros Hmono a u. rewrite lookup_app_Some. intros [Hu|[_ Hu]].
    + destruct (Hinv _ _ Hu) as (rest & Hlog & Hrest).
      exists rest. split; [done|].
      eapply Forall_impl; [exact Hrest|].
      intros t. by apply transfer_entry_mono.
    + apply list_lookup_singleton_Some in Hu as [_ <-]. by exists [].
  - apply step_transfer_cases in Hstep as (_ & _ & [Heq|Hthrough]).
    { unfold log_shape. by rewrite Heq. }
    destruct Hthrough as (u & v & Hu & Hv & Hne & _ & _ & _ & Hd & Hc & Hoth).
    intros a w Hw.
    assert (∀ w0, mem s !! a = Some w0 →
              ∃ rest, transactions_ w0 = opening w0 :: rest
                      ∧ Forall (transfer_entry (mem s') a) rest) as Hold.
    { intros w0 Hw0. destruct (Hinv _ _ Hw0) as (rest & Hlog & Hrest).
      exists rest. split; [done|].
      eapply Forall_impl; [exact Hrest|].
      intros t. by apply transfer_entry_mono. }
    which_account a this cpty Hd Hc Hoth Hw.
    + destruct (Hold _ Hu) as (rest & Hlog & Hrest).
      exists (rest ++ [mk_transaction (Some cpty) (Int.neg amount) c]).
      simpl. rewrite Hlog. split; [done|].
      apply Forall_app. split; [done|]. apply Forall_singleton.
      exists cpty. simpl. by rewrite Hc.
    + destruct (Hold _ Hv) as (rest & Hlog & Hrest).
      exists (rest ++ [mk_transaction (Some this) amount c]).
      simpl. rewrite Hlog. split; [done|].
      apply Forall_app. split; [done|]. apply Forall_singleton.
      exists this. simpl. by rewrite Hd.
    + by apply Hold.
Qed.

Lemma log_shape_reachable s : reachable s → log_shape s.
Proof.
  apply reachable_preserves; [|apply log_shape_step]. intros a u Hu. done.
Qed.

(** X2. In every reachable ledger, the log of an account is its opening
    deposit (no counterparty, +100, "Initial deposit for" and the name)
    followed only by entries whose counterparty is another account of the
    ledger: the opening deposit is the only entry without counterparty,
    no entry names the account itself, and no entry names an address
    without a user. *)
Theorem log_is_opening_then_transfers s a u :
  reachable s → mem s !! a = Some u →
  ∃ rest,
    transactions_ u
    = mk_transaction None 100 ("Initial deposit for " +:+ name_ u) :: rest
    ∧ Forall (λ t, ∃ b w, counterparty t = Some b ∧ b ≠ a
                          ∧ mem s !! b = Some w) rest.
Proof.
  intros Hs Hu.
  destruct (log_shape_reachable _ Hs _ _ Hu) as (rest & Hlog & Hrest).
  exists rest. split; [done|].
  eapply Forall_impl; [exact Hrest|].
  intros t (b & ? & ? & [w ?]). by exists b, w.
Qed.

Lemma log_is_opening_then_transfers_witness :
  reachable simple_transfer
  ∧ mem simple_transfer !! 1%nat
    = Some (mk_user "Bob" 140
              [mk_transaction None 100 "Initial deposit for Bob";
               mk_transaction (Some 0%nat) 40 "Test transfer"] 2)
  ∧ ∃ rest,
      [mk_transaction None 100 "Initial deposit for Bob";
       mk_transaction (Some 0%nat) 40 "Test transfer"]
      = mk_transaction None 100 ("Initial deposit for " +:+ "Bob") :: rest
      ∧ Forall (λ t, ∃ b w, counterparty t = Some b ∧ b ≠ 1%nat
                            ∧ mem simple_transfer !! b = Some w) rest.
Proof.
  assert (reachable simple_transfer) as Hs
    by (exists simple_transfer_ops; reflexivity).
  assert (mem simple_transfer !! 1%nat
          = Some (mk_user "Bob" 140
                    [mk_transaction None 100 "Initial deposit for Bob";
                     mk_transaction (Some 0%nat) 40 "Test transfer"] 2))
    as Hu by reflexivity.
  split; [exact Hs|]. split; [exact Hu|].
  exact (log_is_opening_then_transfers simple_transfer 1%nat _ Hs Hu).
Defined.

End logs.

(** ** Double entry *)

Section bookkeeping.

Lemma with_counterparty_app b l1 l2 :
  with_counterparty b (l1 ++ l2)
  = with_counterparty b l1 ++ with_counterparty b l2.
Proof. apply filter_app. Qed.

Lemma with_counterparty_none b l :
  Forall (λ t, counterparty t ≠ Some b) l → with_counterparty b l = [].
Proof.
  induction 1 as [|t l Ht _ IH]; [done|].
  unfold with_counterparty. rewrite filter_cons_False by done. exact IH.
Qed.

(** No log mentions an address that holds no user. *)
Lemma with_counterparty_absent s a b u :
  log_shape s → mem s !! a = Some u → mem s !! b = None →
  with_counterparty b (transactions_ u) = [].
Proof.
  intros Hshape Hu Hb. destruct (Hshape _ _ Hu) as (rest & -> & Hrest).
  apply with_counterparty_none. constructor; [done|].
  eapply Forall_impl; [exact Hrest|].
  intros t (b' & -> & _ & [w Hw]) [= ->]. congruence.
Qed.

Lemma appended_mirror this cpty amount c a b :
  this ≠ cpty → 0 ≤ amount ≤ Int.max_int →
  mirrored <$> with_counterparty b (appended this cpty amount c a)
  = booked <$> with_counterparty a (appended this cpty amount c b).
Proof.
  intros Hne Hamount. unfold appended, with_counterparty.
  rewrite (neg_exact amount) by done.
  repeat case_decide; subst; rewrite ?filter_cons, ?filter_nil; simpl;
    repeat case_decide; simplify_eq; try done.
  unfold mirrored, booked. simpl. f_equal. f_equal. lia.
Qed.

Lemma double_entry_step o s s' :
  reachable s → double_entry s → step o s = Some s' → double_entry s'.
Proof.
  intros Hs Hinv Hstep. pose proof (log_shape_reachable _ Hs) as Hshape.
  destruct o as [nm|this cpty amount c].
  - rewrite step_get_or_create in Hstep. injection Hstep as <-.
    unfold get_or_create_user. destruct (users_ s !! nm); [done|].
    unfold double_entry. simpl. intros a b u v.
    rewrite !lookup_app_Some.
    intros [Hu|[Ha Hu]] [Hv|[Hb Hv]].
    + by apply Hinv.
    + apply list_lookup_singleton_Some in Hv as [Hb' <-].
      rewrite (with_counterparty_absent s a b u); [done|done|done|].
      apply lookup_ge_None. lia.
    + apply list_lookup_singleton_Some in Hu as [Ha' <-].
      rewrite (with_counterparty_absent s b a v); [done|done|done|].
      apply lookup_ge_None. lia.
    + apply list_lookup_singleton_Some in Hu as [_ <-].
      apply list_lookup_singleton_Some in Hv as [_ <-]. done.
  - apply step_transfer_cases in Hstep as (Hr & _ & [Heq|Hthrough]).
    { unfold double_entry. by rewrite Heq. }
    destruct Hthrough
      as (u & v & Hu & Hv & Hne & Hpos & _ & _ & Hd & Hc & Hoth).
    assert (∀ a w', mem s' !! a = Some w' →
              ∃ w, mem s !! a = Some w
                   ∧ transactions_ w'
                     = transactions_ w ++ appended this cpty amount c a)
      as Hlog.
    { intros a w' Hw'. unfold appended.
      which_account a this cpty Hd Hc Hoth Hw'.
      - by exists u.
      - by exists v.
      - exists w'. by rewrite app_nil_r. }
    intros a b ua' ub' Ha Hb.
    destruct (Hlog _ _ Ha) as (ua & Hua & ->).
    destruct (Hlog _ _ Hb) as (ub & Hub & ->).
    rewrite !with_counterparty_app, !fmap_app, (Hinv _ _ _ _ Hua Hub).
    f_equal. apply appended_mirror; [done|]. destruct Hr. lia.
Qed.

Lemma double_entry_reachable s : reachable s → double_entry s.
Proof.
  intros Hs.
  enough (reachable s ∧ double_entry s) as [_ ?] by done.
  revert s Hs. apply reachable_preserves.
  - split; [apply reachable_init|]. intros a b u v Hu. done.
  - intros o s s' [Hs Hinv] Hstep.
    split; [by eapply reachable_step|by eapply double_entry_step].
Qed.

(** X3. Double entry.  In every reachable ledger and for any two accounts
    [a] and [b], the entries of the log of [a] with counterparty [b] and
    the entries of the log of [b] with counterparty [a] are as many, in the
    same order, with the same comments and opposite deltas: no debit is in
    a log without its credit in the other, and none twice. *)
Theorem debits_mirror_credits s a b u v :
  reachable s → mem s !! a = Some u → mem s !! b = Some v →
  (λ t, (- balance_delta_xts t, comment t))
    <$> filter (λ t, counterparty t = Some b) (transactions_ u)
  = (λ t, (balance_delta_xts t, comment t))
    <$> filter (λ t, counterparty t = Some a) (transactions_ v).
Proof. intros Hs Hu Hv. by apply (double_entry_reachable s Hs a b u v). Qed.

Lemma debits_mirror_credits_witness :
  reachable simple_transfer
  ∧ mem simple_transfer !! 0%nat
    = Some (mk_user "Alice" 60
              [mk_transaction None 100 "Initial deposit for Alice";
               mk_transaction (Some 1%nat) (-40) "Test transfer"] 2)
  ∧ mem simple_transfer !! 1%nat
    = Some (mk_user "Bob" 140
              [mk_transaction None 100 "Initial deposit for Bob";
               mk_transaction (Some 0%nat) 40 "Test transfer"] 2)
  ∧ (λ t, (- balance_delta_xts t, comment t))
      <$> filter (λ t, counterparty t = Some 1%nat)
            [mk_transaction None 100 "Initial deposit for Alice";
             mk_transaction (Some 1%nat) (-40) "Test transfer"]
    = (λ t, (balance_delta_xts t, comment t))
      <$> filter (λ t, counterparty t = Some 0%nat)
            [mk_transaction None 100 "Initial deposit for Bob";
             mk_transaction (Some 0%nat) 40 "Test transfer"].
Proof.
  assert (reachable simple_transfer) as Hs
    by (exists simple_transfer_ops; reflexivity).
  assert (mem simple_transfer !! 0%nat
          = Some (mk_user "Alice" 60
                    [mk_transaction None 100 "Initial deposit for Alice";
                     mk_transaction (Some 1%nat) (-40) "Test transfer"] 2))
    as Hu by reflexivity.
  assert (mem simple_transfer !! 1%nat
          = Some (mk_user "Bob" 140
                    [mk_transaction None 100 "Initial deposit for Bob";
                     mk_transaction (Some 0%nat) 40 "Test transfer"] 2))
    as Hv by reflexivity.
  split; [exact Hs|]. split; [exact Hu|]. split; [exact Hv|].
  exact (debits_mirror_credits simple_transfer 0%nat 1%nat _ _ Hs Hu Hv).
Defined.

End bookkeeping.

(** ** Funds and growth *)

Section growth.

(** X4. Transfers neither create nor destroy money: in every reachable
    ledger of at most 21474836 accounts the balances add up to 100 units
    per account. *)
Theorem funds_conserved s :
  reachable s → Z.of_nat (length (mem s)) ≤ max_accounts →
  total_funds (mem s) = 100 * Z.of_nat (length (mem s)).
Proof. intros Hs Hn. apply (funds_total _ (funds_inv_reachable _ Hs Hn)). Qed.

Lemma funds_conserved_witness :
  reachable simple_transfer
  ∧ Z.of_nat (length (mem simple_transfer)) ≤ max_accounts
  ∧ total_funds (mem simple_transfer)
    = 100 * Z.of_nat (length (mem simple_transfer)).
Proof.
  assert (reachable simple_transfer) as Hs
    by (exists simple_transfer_ops; reflexivity).
  assert (Z.of_nat (length (mem simple_transfer)) ≤ max_accounts) as Hn
    by (vm_compute; discriminate).
  split; [exact Hs|]. split; [exact Hn|].
  exact (funds_conserved simple_transfer Hs Hn).
Defined.

(** X5. Nothing is ever taken away.  Along any run of account creations
    and transfers, whatever their outcome, the number of accounts does not
    go down, a name keeps the address it maps to, and an account keeps its
    address and its name, and every entry of its log stays, unchanged, at
    its index. *)
Theorem ledger_only_grows ops s s' :
  run ops s = Some s' →
  (length (mem s) ≤ length (mem s'))%nat
  ∧ (∀ nm a, users_ s !! nm = Some a → users_ s' !! nm = Some a)
  ∧ (∀ a u, mem s !! a = Some u →
       ∃ u', mem s' !! a = Some u' ∧ name_ u' = name_ u
             ∧ (length (transactions_ u) ≤ length (transactions_ u'))%nat
             ∧ (∀ i t, transactions_ u !! i = Some t →
                       transactions_ u' !! i = Some t)).
Proof.
  intros Hrun. split; [by eapply run_length|].
  destruct (run_extends _ _ _ Hrun) as [Hus Hmem]. split; [exact Hus|].
  intros a u Hu. destruct (Hmem _ _ Hu) as (u' & Hu' & Hn & Hp).
  exists u'. split; [done|]. split; [done|].
  split; [by apply prefix_length|].
  intros i t Ht. by eapply prefix_lookup_Some.
Qed.

Lemma ledger_only_grows_witness :
  run [op_transfer 0 1 40 "Test transfer"; op_get_or_create_user "Carol";
       op_transfer 1 0 500 "too much"] alice_bob
  = Some (mk_state (mem simple_transfer ++ [user_ctor "Carol"])
                   (<["Carol" := 2%nat]> (users_ alice_bob)))
  ∧ (length (mem alice_bob)
     ≤ length (mem simple_transfer ++ [user_ctor "Carol"]))%nat
  ∧ (∀ nm a, users_ alice_bob !! nm = Some a →
             <["Carol" := 2%nat]> (users_ alice_bob) !! nm = Some a)
  ∧ (∀ a u, mem alice_bob !! a = Some u →
       ∃ u', (mem simple_transfer ++ [user_ctor "Carol"]) !! a = Some u'
             ∧ name_ u' = name_ u
             ∧ (length (transactions_ u) ≤ length (transactions_ u'))%nat
             ∧ (∀ i t, transactions_ u !! i = Some t →
                       transactions_ u' !! i = Some t)).
Proof.
  assert (run [op_transfer 0 1 40 "Test transfer";
               op_get_or_create_user "Carol";
               op_transfer 1 0 500 "too much"] alice_bob
          = Some (mk_state (mem simple_transfer ++ [user_ctor "Carol"])
                           (<["Carol" := 2%nat]> (users_ alice_bob))))
    as Hrun by reflexivity.
  split; [exact Hrun|].
  exact (ledger_only_grows _ alice_bob _ Hrun).
Defined.

End growth.

(** ** How transfers compose *)

Section composition.

(** A call changes nothing but the two users it names. *)
Lemma transfer_locality this cpty amount c (h h' : heap) r :
  transfer this cpty amount c h = Some (h', r) →
  length h' = length h
  ∧ (∀ x, x ≠ this → x ≠ cpty → h' !! x = h !! x).
Proof.
  intros Ht. destruct (transfer_is_Some _ _ _ _ _ _ _ Ht) as (u & v & Hu & Hv).
  pose proof (transfer_cases this cpty amount c h u v Hu Hv) as Hc.
  rewrite Ht in Hc.
  inversion Hc as [ | | |h0 Hne Hpos Hok Hlen Hd Hcr Hoth]; subst; done.
Qed.

(** Its outcome and what it makes of the two users depend on these two
    users only. *)
Lemma transfer_frame this cpty amount c (h h' g : heap) r :
  transfer this cpty amount c h = Some (h', r) →
  g !! this = h !! this → g !! cpty = h !! cpty →
  ∃ g', transfer this cpty amount c g = Some (g', r)
        ∧ g' !! this = h' !! this ∧ g' !! cpty = h' !! cpty.
Proof.
  intros Ht Hgt Hgc.
  destruct (transfer_is_Some _ _ _ _ _ _ _ Ht) as (u & v & Hu & Hv).
  rewrite Hu in Hgt. rewrite Hv in Hgc.
  destruct (decide (this = cpty)) as [Heq|Hne].
  { rewrite (transfer_self this cpty amount c h u v Hu Hv Heq) in Ht.
    injection Ht as <- <-. exists g.
    by rewrite (transfer_self this cpty amount c g u v Hgt Hgc Heq), Hgt, Hgc. }
  destruct (decide (amount < 0)) as [Hneg|Hpos].
  { rewrite (transfer_negative this cpty amount c h u v Hu Hv Hne Hneg) in Ht.
    injection Ht as <- <-. exists g.
    by rewrite (transfer_negative this cpty amount c g u v Hgt Hgc Hne Hneg),
      Hgt, Hgc. }
  destruct (decide (Int.sub (balance_ u) amount < 0)) as [Hlow|Hok].
  { rewrite (transfer_no_funds this cpty amount c h u v Hu Hv Hne) in Ht
      by (done || lia).
    injection Ht as <- <-. exists g.
    rewrite (transfer_no_funds this cpty amount c g u v Hgt Hgc Hne)
      by (done || lia).
    by rewrite Hgt, Hgc. }
  destruct (transfer_through this cpty amount c h u v Hu Hv Hne)
    as (h0 & Ht0 & _ & Hd & Hc & _); [lia|lia|].
  rewrite Ht0 in Ht. injection Ht as <- <-.
  destruct (transfer_through this cpty amount c g u v Hgt Hgc Hne)
    as (g' & Htg & _ & Hdg & Hcg & _); [lia|lia|].
  exists g'. by rewrite Htg, Hdg, Hcg, Hd, Hc.
Qed.

(** X6. Transfers between two disjoint pairs of accounts commute: made
    in either order, each has the same outcome, and the heap at the end
    is the same. *)
Theorem disjoint_transfers_commute (h h1 h12 : heap) a b c d x y m1 m2 r1 r2 :
  a ≠ c → a ≠ d → b ≠ c → b ≠ d →
  transfer a b x m1 h = Some (h1, r1) →
  transfer c d y m2 h1 = Some (h12, r2) →
  ∃ h2, transfer c d y m2 h = Some (h2, r2)
        ∧ transfer a b x m1 h2 = Some (h12, r1).
Proof.
  intros Hac Had Hbc Hbd T1 T2.
  destruct (transfer_locality _ _ _ _ _ _ _ T1) as [_ L1].
  destruct (transfer_locality _ _ _ _ _ _ _ T2) as [_ L2].
  destruct (transfer_frame c d y m2 h1 h12 h r2 T2) as (h2 & T2' & F2c & F2d).
  { symmetry. by apply L1. }
  { symmetry. by apply L1. }
  destruct (transfer_locality _ _ _ _ _ _ _ T2') as [_ L2'].
  destruct (transfer_frame a b x m1 h h1 h2 r1 T1) as (h21 & T1' & F1a & F1b).
  { by apply L2'. }
  { by apply L2'. }
  destruct (transfer_locality _ _ _ _ _ _ _ T1') as [_ L1'].
  exists h2. split; [exact T2'|]. rewrite T1'. do 2 f_equal.
  apply list_eq. intros i.
  destruct (decide (i = a)) as [->|Hia]; [by rewrite F1a, L2|].
  destruct (decide (i = b)) as [->|Hib]; [by rewrite F1b, L2|].
  rewrite L1' by done.
  destruct (decide (i = c)) as [->|Hic]; [done|].
  destruct (decide (i = d)) as [->|Hid]; [done|].
  by rewrite L2', L2, L1.
Qed.

Lemma disjoint_transfers_commute_witness :
  ∃ h2,
    transfer 2 3 500 "loan" four_accounts
    = Some (h2, thrown (make_not_enough_funds_error 100 500))
    ∧ transfer 0 1 10 "rent" h2 = Some (rent_paid, returned).
Proof.
  apply (disjoint_transfers_commute four_accounts rent_paid rent_paid
           0%nat 1%nat 2%nat 3%nat 10 500 "rent" "loan");
    (lia || reflexivity).
Defined.

(** X7. Between two distinct accounts [a] and [b] whose balances are
    [int]s, for an amount that is at least 0 and at most the balance of
    [a], with the balance of [b] at least 0 and the balance of [b] plus
    the amount at most 2147483647: the transfer from [a] to [b] and the
    transfer of the same amount back from [b] to [a] both return, both
    balances are then what they were, each of the two logs has gained
    the two entries, in order, and no other account has changed. *)
Theorem transfer_there_and_back (h : heap) a b amount c1 c2 u v :
  h !! a = Some u → h !! b = Some v → a ≠ b →
  Int.in_range (balance_ u) → 0 ≤ balance_ v →
  0 ≤ amount → amount ≤ balance_ u → balance_ v + amount ≤ Int.max_int →
  ∃ h1 h2 u2 v2,
    transfer a b amount c1 h = Some (h1, returned)
    ∧ transfer b a amount c2 h1 = Some (h2, returned)
    ∧ h2 !! a = Some u2 ∧ h2 !! b = Some v2
    ∧ balance_ u2 = balance_ u ∧ balance_ v2 = balance_ v
    ∧ transactions_ u2
      = transactions_ u ++ [mk_transaction (Some b) (- amount) c1;
                            mk_transaction (Some b) amount c2]
    ∧ transactions_ v2
      = transactions_ v ++ [mk_transaction (Some a) amount c1;
                            mk_transaction (Some a) (- amount) c2]
    ∧ (∀ x, x ≠ a → x ≠ b → h2 !! x = h !! x).
Proof.
  intros Hu Hv Hne Hru Hv0 Ha0 Hle Hfit.
  assert (Int.in_range amount) as Hra
    by (unfold Int.in_range, Int.min_int, Int.max_int in *; lia).
  assert (Int.in_range (balance_ v)) as Hrv
    by (unfold Int.in_range, Int.min_int, Int.max_int in *; lia).
  assert (Int.sub (balance_ u) amount = balance_ u - amount) as Hsub
    by (apply wrap_id; unfold Int.in_range, Int.min_int, Int.max_int in *; lia).
  assert (Int.add (balance_ v) amount = balance_ v + amount) as Hadd
    by (apply wrap_id; unfold Int.in_range, Int.min_int, Int.max_int in *; lia).
  assert (Int.neg amount = - amount) as Hneg
    by (apply wrap_id; unfold Int.in_range, Int.min_int, Int.max_int in *; lia).
  destruct (transfer_through a b amount c1 h u v Hu Hv Hne)
    as (h1 & T1 & _ & Hd1 & Hc1 & Ho1); [lia|lia|].
  destruct (transfer_through b a amount c2 h1 _ _ Hc1 Hd1)
    as (h2 & T2 & _ & Hd2 & Hc2 & Ho2); [done|lia| |].
  { simpl. rewrite Hadd. unfold Int.sub.
    replace (balance_ v + amount - amount) with (balance_ v) by lia.
    by rewrite wrap_id. }
  exists h1, h2. eexists _, _.
  split; [exact T1|]. split; [exact T2|].
  split; [exact Hc2|]. split; [exact Hd2|].
  simpl. rewrite Hsub, Hadd, Hneg.
  unfold Int.add at 1. unfold Int.sub at 1.
  replace (balance_ u - amount + amount) with (balance_ u) by lia.
  replace (balance_ v + amount - amount) with (balance_ v) by lia.
  split; [by apply wrap_id|]. split; [by apply wrap_id|].
  split; [by rewrite <- app_assoc|]. split; [by rewrite <- app_assoc|].
  intros x Hxa Hxb. rewrite Ho2, Ho1 by done. done.
Qed.

Lemma transfer_there_and_back_witness :
  ∃ h1 h2 u2 v2,
    transfer 0 1 40 "lend" four_accounts = Some (h1, returned)
    ∧ transfer 1 0 40 "repay" h1 = Some (h2, returned)
    ∧ h2 !! 0%nat = Some u2 ∧ h2 !! 1%nat = Some v2
    ∧ balance_ u2 = 100 ∧ balance_ v2 = 100
    ∧ transactions_ u2
      = [mk_transaction None 100 "Initial deposit for Alice";
         mk_transaction (Some 1%nat) (- 40) "lend";
         mk_transaction (Some 1%nat) 40 "repay"]
    ∧ transactions_ v2
      = [mk_transaction None 100 "Initial deposit for Bob";
         mk_transaction (Some 0%nat) 40 "lend";
         mk_transaction (Some 0%nat) (- 40) "repay"]
    ∧ (∀ x, x ≠ 0%nat → x ≠ 1%nat → h2 !! x = four_accounts !! x).
Proof.
  exact (transfer_there_and_back four_accounts 0%nat 1%nat 40 "lend" "repay"
           (user_ctor "Alice") (user_ctor "Bob") eq_refl eq_refl
           ltac:(lia) ltac:(vm_compute; split; discriminate)
           ltac:(vm_compute; discriminate) ltac:(lia)
           ltac:(vm_compute; discriminate) ltac:(vm_compute; discriminate)).
Defined.

End composition.

(** ** The server *)

Section server.
Import client_connection bank_server.
Context {istream : Type}.
Variable extract_n : istream → Z.
Variable extract_transfer : istream → string * Z * string.

Lemma transfer_total this cpty amount c (h : heap) u v :
  h !! this = Some u → h !! cpty = Some v →
  ∃ h' r, bank.transfer this cpty amount c h = Some (h', r).
Proof.
  intros Hu Hv. unfold bank.transfer. rewrite Hu, Hv.
  repeat case_decide; eexists _, _; reflexivity.
Qed.

Lemma logged_in_extends s s' c : extends s s' → logged_in s c → logged_in s' c.
Proof.
  intros [Hus Hm] (u & Hu & Hn).
  destruct (Hm _ _ Hu) as (u' & Hu' & Hname & _).
  exists u'. split; [done|]. rewrite Hname. by apply Hus.
Qed.

Lemma mode_ok_extends s s' c m : extends s s' → mode_ok s c m → mode_ok s' c m.
Proof.
  intros [_ Hm]. destruct m as [|to amount comment|n [| |it]]; simpl; try done.
  intros [[v Hv] Hr]. destruct (Hm _ _ Hv) as (v' & Hv' & _).
  split; [by exists v'|done].
Qed.

Lemma conns_extends s s' (conns : list (t * mode)) :
  extends s s' →
  Forall (λ cm, logged_in s cm.1 ∧ mode_ok s cm.1 cm.2) conns →
  Forall (λ cm, logged_in s' cm.1 ∧ mode_ok s' cm.1 cm.2) conns.
Proof.
  intros He Hc. eapply Forall_impl; [exact Hc|]. intros [c m] [Hl Hm].
  split; [by eapply logged_in_extends|by eapply mode_ok_extends].
Qed.

(** The lookup of a name, in a reachable ledger. *)
Lemma get_or_create_user_step nm s s' a :
  reachable s → get_or_create_user nm s = (s', a) →
  reachable s' ∧ extends s s' ∧ users_ s' !! nm = Some a
  ∧ ∃ u, mem s' !! a = Some u ∧ name_ u = nm.
Proof.
  intros Hs Hg.
  assert (step (op_get_or_create_user nm) s = Some s') as Hstep
    by (by rewrite step_get_or_create, Hg).
  assert (reachable s') as Hs' by exact (reachable_step _ _ _ Hs Hstep).
  split; [done|]. split; [exact (step_extends _ _ _ Hstep)|].
  assert (users_ s' !! nm = Some a) as Hl.
  { unfold get_or_create_user in Hg.
    destruct (users_ s !! nm) eqn:E; simplify_eq; simpl; [done|].
    by rewrite lookup_insert_eq. }
  split; [done|].
  apply (ledger_named _ (ledger_inv_reachable _ Hs') _ _ Hl).
Qed.

(** The call of [user::transfer] by a connection, in a reachable ledger. *)
Lemma transfer_call_step to amount comment s c v :
  logged_in s c → mem s !! to = Some v → Int.in_range amount →
  ∃ s' r,
    transfer_call to amount comment s c
    = Some (s', mk (user_ c) (client_ c ++ [reply r]))
    ∧ bank.transfer (user_ c) to amount comment (mem s) = Some (mem s', r)
    ∧ users_ s' = users_ s
    ∧ step (op_transfer (user_ c) to amount comment) s = Some s'.
Proof.
  intros (u & Hu & _) Hv Hr.
  destruct (transfer_total (user_ c) to amount comment (mem s) u v Hu Hv)
    as (h' & r & Ht).
  exists (mk_state h' (users_ s)), r. unfold transfer_call, step.
  rewrite decide_True by done. by rewrite Ht.
Qed.

Lemma session_step_inv e s conns :
  (∀ iss, Int.in_range (extract_transfer iss).1.2) →
  session_inv s conns →
  ∃ s' conns',
    session_step extract_n extract_transfer e s conns = Some (s', conns')
    ∧ session_inv s' conns'.
Proof.
  intros Hext [Hs Hc]. destruct e as [name|i cmd iss|i]; simpl.
  - unfold authentication.
    destruct (get_or_create_user name s) as [s' a] eqn:Hg.
    destruct (get_or_create_user_step _ _ _ _ Hs Hg)
      as (Hs' & He & Hl & u & Hu & Hn).
    eexists _, _. split; [reflexivity|]. split; [done|].
    apply Forall_app. split; [by eapply conns_extends|].
    apply Forall_singleton. split; [|done].
    exists u. simpl. split; [done|]. by rewrite Hn.
  - destruct (conns !! i) as [[c m]|] eqn:Hi;
      [|by eexists _, _; split; [reflexivity|split]].
    destruct (Forall_lookup_1 _ _ _ _ Hc Hi) as [Hl Hm]. simpl in Hl, Hm.
    destruct m; try by (eexists _, _; split; [reflexivity|split]).
    pose proof Hl as (u & Hu & Hn).
    unfold run_command. destruct (get_command cmd) eqn:Hcmd.
    + unfold balance, balance_xts. rewrite Hu. simpl.
      eexists _, _. split; [reflexivity|]. split; [done|].
      apply Forall_insert; [done|]. by split.
    + unfold get_transactions, snapshot_transactions. rewrite Hu.
      eexists _, _. split; [reflexivity|]. split; [done|].
      apply Forall_insert; [done|]. by split.
    + eexists _, _. split; [reflexivity|]. split; [done|].
      apply Forall_insert; [done|]. by split.
    + pose proof (Hext iss) as Hr.
      destruct (extract_transfer iss) as [[cp amount] comment].
      destruct (get_or_create_user cp s) as [s1 to] eqn:Hg.
      destruct (get_or_create_user_step _ _ _ _ Hs Hg)
        as (Hs' & He & _ & v & Hv & _).
      eexists _, _. split; [reflexivity|]. split; [done|].
      apply Forall_insert; [by eapply conns_extends|].
      split; [by eapply logged_in_extends|]. simpl. split; [by exists v|done].
    + eexists _, _. split; [reflexivity|]. split; [done|].
      apply Forall_insert; [done|]. by split.
  - destruct (conns !! i) as [[c m]|] eqn:Hi;
      [|by eexists _, _; split; [reflexivity|split]].
    destruct (Forall_lookup_1 _ _ _ _ Hc Hi) as [Hl Hm]. simpl in Hl, Hm.
    pose proof Hl as (u & Hu & Hn).
    destruct m as [|to amount comment|n [| |it]].
    + by eexists _, _; split; [reflexivity|split].
    + destruct Hm as [[v Hv] Hr].
      destruct (transfer_call_step to amount comment s c v Hl Hv Hr)
        as (s' & r & -> & _ & _ & Hstep).
      pose proof (step_extends _ _ _ Hstep) as He.
      eexists _, _. split; [reflexivity|].
      split; [exact (reachable_step _ _ _ Hs Hstep)|].
      apply Forall_insert; [by eapply conns_extends|].
      split; [|done]. by apply (logged_in_extends s s' c).
    + simpl. unfold get_transactions, snapshot_transactions. rewrite Hu.
      eexists _, _. split; [reflexivity|]. split; [done|].
      apply Forall_insert; [done|]. by split.
    + simpl. unfold bank.monitor. rewrite Hu.
      eexists _, _. split; [reflexivity|]. split; [done|].
      apply Forall_insert; [done|]. by split.
    + simpl in Hm. simpl.
      destruct (wait_next_transaction it (mem s)) as [[cur it']|] eqn:Hw.
      * destruct (wait_next_transaction_inv _ _ _ _ Hw) as (_ & _ & _ & ->).
        eexists _, _. split; [reflexivity|]. split; [done|].
        apply Forall_insert; [done|]. by split.
      * rewrite decide_True by (rewrite Hm, Hu; by eexists).
        by eexists _, _; split; [reflexivity|split].
Qed.

(** X8. Whatever the clients send and however their threads interleave,
    no thread of the server ever uses a [user] pointer that is null or
    dangling: every step is defined.  The ledger stays one that account
    creations and transfers reach, and every connection stays logged in to
    an account of the ledger filed under its name.  Amounts are [int]s, as
    the extraction into [int amount] gives them. *)
Theorem server_never_stuck es :
  (∀ iss, Int.in_range (extract_transfer iss).1.2) →
  ∃ s conns,
    session extract_n extract_transfer es init [] = Some (s, conns)
    ∧ reachable s
    ∧ Forall (λ cm, logged_in s cm.1) conns.
Proof.
  intros Hext.
  assert (∀ es s conns, session_inv s conns →
            ∃ s' conns',
              session extract_n extract_transfer es s conns
              = Some (s', conns') ∧ session_inv s' conns') as Hgen.
  { clear es. induction es as [|e es IH]; intros s conns Hinv.
    - by exists s, conns.
    - destruct (session_step_inv e s conns Hext Hinv)
        as (s1 & conns1 & Hstep & Hinv1).
      simpl. rewrite Hstep. by apply IH. }
  destruct (Hgen es init []) as (s & conns & Hrun & Hs & Hc).
  { split; [apply reachable_init|constructor]. }
  exists s, conns. split; [done|]. split; [done|].
  eapply Forall_impl; [exact Hc|]. by intros cm [Hl _].
Qed.

End server.

Lemma server_never_stuck_witness :
  (∀ iss : unit, Int.in_range (("Bob", 30, " thanks") : string * Z * string).1.2)
  ∧ ∃ s conns,
      bank_server.session (λ _ : unit, 3) (λ _ : unit, ("Bob", 30, " thanks"))
        [bank_server.connects "Alice"; bank_server.connects "Bob";
         bank_server.sends 1 "monitor" (); bank_server.continues 1;
         bank_server.sends 0 "transfer" (); bank_server.continues 1;
         bank_server.continues 0; bank_server.continues 1;
         bank_server.continues 1; bank_server.sends 0 "balance" ();
         bank_server.sends 0 "Balance" ()] init []
      = Some (s, conns)
      ∧ reachable s
      ∧ Forall (λ cm, logged_in s cm.1) conns.
Proof.
  assert (∀ iss : unit,
            Int.in_range (("Bob", 30, " thanks") : string * Z * string).1.2)
    as Hext by (intros _; vm_compute; split; discriminate).
  split; [exact Hext|].
  exact (server_never_stuck (λ _ : unit, 3) (λ _ : unit, ("Bob", 30, " thanks"))
           _ Hext).
Defined.

(** ** The commands of a connection *)

Section transfer_command.
Import client_connection bank_server.

(** X9. A client that names its own account as the counterparty gets
    the reply [Self-transfer], whatever the amount, and nothing in the
    ledger changes. *)
Theorem transfer_to_own_name_refused s c u amount comment :
  reachable s → mem s !! user_ c = Some u →
  bank_server.transfer (name_ u) amount comment s c
  = Some (s, mk (user_ c) (client_ c ++ ["Self-transfer" +:+ nl])).
Proof.
  intros Hs Hu.
  pose proof (ledger_owns _ (ledger_inv_reachable _ Hs) _ _ Hu) as Hn.
  unfold bank_server.transfer, transfer_call.
  rewrite (get_or_create_user_old _ _ _ Hn).
  rewrite (transfer_self _ _ amount (strip_space comment) _ u u Hu Hu eq_refl).
  by destruct s.
Qed.

Lemma transfer_to_own_name_refused_witness :
  reachable alice_bob
  ∧ mem alice_bob !! 0%nat = Some (user_ctor "Alice")
  ∧ bank_server.transfer "Alice" 10 " to myself" alice_bob (mk 0 [])
    = Some (alice_bob, mk 0 ["Self-transfer" +:+ nl]).
Proof.
  assert (reachable alice_bob) as Hs
    by (exists [op_get_or_create_user "Alice"; op_get_or_create_user "Bob"];
        reflexivity).
  split; [exact Hs|]. split; [reflexivity|].
  exact (transfer_to_own_name_refused alice_bob (mk 0 []) (user_ctor "Alice")
           10 " to myself" Hs eq_refl).
Defined.





(** X12. Two connections are logged in to the same account exactly when
    their clients gave the same name, whatever account creations and
    transfers happen between the two logins. *)
Theorem same_name_same_account s n1 n2 s1 c1 ops s2 s3 c2 :
  reachable s →
  authentication n1 s = (s1, c1) → run ops s1 = Some s2 →
  authentication n2 s2 = (s3, c2) →
  user_ c1 = user_ c2 ↔ n1 = n2.
Proof.
  unfold authentication. intros Hs H1 Hrun H2.
  destruct (get_or_create_user n1 s) as [s1' a1] eqn:Hg1.
  destruct (get_or_create_user n2 s2) as [s3' a2] eqn:Hg2.
  simplify_eq. simpl.
  destruct (get_or_create_user_step _ _ _ _ Hs Hg1)
    as (Hs1 & _ & Hl1 & u1 & Hu1 & Hn1).
  pose proof (reachable_run _ _ _ Hs1 Hrun) as Hs2.
  destruct (get_or_create_user_step _ _ _ _ Hs2 Hg2)
    as (Hs3 & He3 & Hl2 & u2 & Hu2 & Hn2).
  pose proof (extends_trans _ _ _ (run_extends _ _ _ Hrun) He3) as He.
  split.
  - intros Ha. destruct (extends_mem _ _ He _ _ Hu1) as (u' & Hu' & Hn' & _).
    rewrite Ha in Hu'. simplify_eq. by rewrite <- Hn'.
  - intros <-. pose proof (extends_users _ _ He _ _ Hl1). by simplify_eq.
Qed.

Lemma same_name_same_account_witness :
  reachable init
  ∧ authentication "Alice" init
    = (mk_state [user_ctor "Alice"] (<["Alice" := 0%nat]> ∅),
       mk 0 ["What is your name?" +:+ nl; "Hi Alice" +:+ nl])
  ∧ run [op_get_or_create_user "Bob"; op_transfer 0 1 40 "Test transfer"]
        (mk_state [user_ctor "Alice"] (<["Alice" := 0%nat]> ∅))
    = Some simple_transfer
  ∧ authentication "Alice" simple_transfer
    = (simple_transfer,
       mk 0 ["What is your name?" +:+ nl; "Hi Alice" +:+ nl])
  ∧ ((0 = 0)%nat ↔ "Alice" = "Alice").
Proof.
  split; [apply reachable_init|]. split; [reflexivity|].
  split; [reflexivity|]. split; [reflexivity|].
  exact (same_name_same_account init "Alice" "Alice" _ _
           [op_get_or_create_user "Bob"; op_transfer 0 1 40 "Test transfer"]
           simple_transfer simple_transfer _
           reachable_init eq_refl eq_refl eq_refl).
Defined.

End transfer_command.

Section read_commands.
Import client_connection bank_server.
Context {istream : Type}.
Variable extract_n : istream → Z.
Variable extract_transfer : istream → string * Z * string.

(** X13. Commands are matched as whole words and by case: a first
    word that is none of the four is answered [Unknown command: '...']
    with the word as it was read, the empty word of an empty line
    included, and nothing else happens. *)
Theorem unknown_command_reply cmd iss s c :
  cmd ∉ ["balance"; "transactions"; "monitor"; "transfer"] →
  run_command extract_n extract_transfer cmd iss s c
  = Some (next_command s
            (mk (user_ c)
                (client_ c ++ ["Unknown command: '" +:+ cmd +:+ "'" +:+ nl]))).
Proof.
  intros Hcmd. unfold run_command, get_command, command_map.
  by rewrite not_elem_of_list_to_map_1.
Qed.

(** X14. [transactions N], for [N] up to 2^31 above the length of the
    log (a length that fits in [int]): the ledger is left as it is and the
    reply is the header, the last [N] entries of the log in their order,
    all of them when there are fewer, and the footer with the balance. *)
Theorem transactions_command_prints_last_n iss s c u :
  mem s !! user_ c = Some u →
  Z.of_nat (length (transactions_ u)) ≤ Int.max_int →
  0 ≤ extract_n iss ≤ Z.of_nat (length (transactions_ u)) + 2147483648 →
  run_command extract_n extract_transfer "transactions" iss s c
  = Some (next_command s
            (mk (user_ c)
                (client_ c ++ [header]
                 ++ (format_transaction (mem s)
                       <$> drop (length (transactions_ u)
                                 - Z.to_nat (extract_n iss))
                                (transactions_ u))
                 ++ [footer (balance_ u)]))).
Proof.
  intros Hu Hlen Hn.
  change (run_command extract_n extract_transfer "transactions" iss s c)
    with (match get_transactions (extract_n iss) (mem s) c with
          | Some c' => Some (next_command s c')
          | None => None
          end).
  unfold get_transactions, snapshot_transactions. rewrite Hu.
  by rewrite get_transactions_visitor_near.
Qed.

End read_commands.

Lemma unknown_command_reply_witness :
  ("Balance" ∉ ["balance"; "transactions"; "monitor"; "transfer"])
  ∧ bank_server.run_command (λ _ : unit, 0) (λ _ : unit, ("", 0, ""))
      "Balance" () alice_bob (client_connection.mk 0 [])
    = Some (bank_server.next_command alice_bob
              (client_connection.mk 0
                 ["Unknown command: 'Balance'" +:+ client_connection.nl])).
Proof.
  assert ("Balance" ∉ ["balance"; "transactions"; "monitor"; "transfer"])
    as Hcmd by (apply (bool_decide_eq_false_1 _); reflexivity).
  split; [exact Hcmd|].
  exact (unknown_command_reply (λ _ : unit, 0) (λ _ : unit, ("", 0, ""))
           "Balance" () alice_bob (client_connection.mk 0 []) Hcmd).
Defined.

Lemma transactions_command_prints_last_n_witness :
  mem simple_transfer !! 1%nat
  = Some (mk_user "Bob" 140
            [mk_transaction None 100 "Initial deposit for Bob";
             mk_transaction (Some 0%nat) 40 "Test transfer"] 2)
  ∧ bank_server.run_command (λ _ : unit, 1) (λ _ : unit, ("", 0, ""))
      "transactions" () simple_transfer (client_connection.mk 1 [])
    = Some (bank_server.next_command simple_transfer
              (client_connection.mk 1
                 [client_connection.header;
                  "Alice" +:+ client_connection.tab +:+ "40"
                    +:+ client_connection.tab +:+ "Test transfer"
                    +:+ client_connection.nl;
                  client_connection.footer 140])).
Proof.
  split; [reflexivity|].
  exact (transactions_command_prints_last_n (λ _ : unit, 1)
           (λ _ : unit, ("", 0, "")) () simple_transfer
           (client_connection.mk 1 []) _ eq_refl
           ltac:(vm_compute; discriminate)
           ltac:(vm_compute; split; discriminate)).
Defined.

(** ** Cursors and the monitor loop *)

Section streaming.
Import schedule client_connection.

Lemma deliver_run evs s it ts it' s' :
  deliver evs s it = Some (ts, it', s') → ∃ ops, run ops s = Some s'.
Proof.
  revert s it ts it' s'.
  induction evs as [|[|o] evs IH]; intros s it ts it' s' Hd; simpl in Hd.
  - simplify_eq. by exists [].
  - destruct (wait_next_transaction it (mem s)) as [[cur it1]|]; [|by eauto].
    destruct (deliver evs s it1) as [[[ts1 it2] s2]|] eqn:Hd1; [|done].
    simplify_eq. by eapply IH.
  - destruct (step o s) as [s1|] eqn:Hstep; [|done].
    destruct (IH _ _ _ _ _ Hd) as [ops Hops].
    exists (o :: ops). by rewrite run_cons, Hstep.
Qed.

(** The counterparty of an entry of a log is null or a user of the
    ledger, and users keep their names: the line of an entry reads the
    same ever after. *)
Lemma format_transaction_stable s s' a u i cur :
  reachable s → extends s s' →
  mem s !! a = Some u → transactions_ u !! i = Some cur →
  format_transaction (mem s') cur = format_transaction (mem s) cur.
Proof.
  intros Hs He Hu Hi.
  destruct (log_shape_reachable _ Hs _ _ Hu) as (rest & Hlog & Hrest).
  rewrite Hlog in Hi. destruct i as [|i]; simpl in Hi.
  - by simplify_eq.
  - destruct (Forall_lookup_1 _ _ _ _ Hrest Hi) as (b & Hb & _ & [w Hw]).
    destruct (extends_mem _ _ He _ _ Hw) as (w' & Hw' & Hn & _).
    unfold format_transaction, name. by rewrite Hb, Hw, Hw', Hn.
Qed.

(** X15. Once the loop of [monitor] has its cursor, what it writes to
    the client is, line for line, what the cursor delivers: under any
    interleaving with other threads, every transaction that
    [wait_next_transaction] returns is pushed once, in the order returned,
    and nothing else is written. *)
Theorem monitor_pushes_what_cursor_delivers n evs s c it :
  reachable s →
  run_monitor n evs s c (pc_wait_next it)
  = match deliver evs s it with
    | Some (ts, it', s') =>
      Some (s',
            mk (user_ c) (client_ c ++ (format_transaction (mem s') <$> ts)),
            pc_wait_next it')
    | None => None
    end.
Proof.
  revert s c it. induction evs as [|[|o] evs IH]; intros s c it Hs; simpl.
  - destruct c. simpl. by rewrite app_nil_r.
  - destruct (wait_next_transaction it (mem s)) as [[cur it1]|] eqn:Hw;
      [|by apply IH].
    rewrite IH by done.
    destruct (deliver evs s it1) as [[[ts it'] s']|] eqn:Hd; [|done].
    destruct (wait_next_transaction_inv _ _ _ _ Hw) as (u & Hu & Hcur & _).
    destruct (deliver_run _ _ _ _ _ _ Hd) as [ops Hops].
    rewrite <- (format_transaction_stable s s' _ _ _ _ Hs
                  (run_extends _ _ _ Hops) Hu Hcur).
    simpl. by rewrite <- app_assoc.
  - destruct (step o s) as [s1|] eqn:Hstep; [|done].
    apply IH. exact (reachable_step _ _ _ Hs Hstep).
Qed.

Lemma monitor_pushes_what_cursor_delivers_witness :
  reachable alice_bob
  ∧ run_monitor 10
      [ev_self; ev_other (op_transfer 1 0 10 "x"); ev_self;
       ev_other (op_get_or_create_user "Carol");
       ev_other (op_transfer 0 2 5 "y"); ev_self; ev_self]
      alice_bob (mk 0 []) (pc_wait_next (mk_iterator 0 1))
    = match deliver
              [ev_self; ev_other (op_transfer 1 0 10 "x"); ev_self;
               ev_other (op_get_or_create_user "Carol");
               ev_other (op_transfer 0 2 5 "y"); ev_self; ev_self]
              alice_bob (mk_iterator 0 1) with
      | Some (ts, it', s') =>
        Some (s', mk 0 ([] ++ (format_transaction (mem s') <$> ts)),
              pc_wait_next it')
      | None => None
      end.
Proof.
  assert (reachable alice_bob) as Hs
    by (exists [op_get_or_create_user "Alice"; op_get_or_create_user "Bob"];
        reflexivity).
  split; [exact Hs|].
  exact (monitor_pushes_what_cursor_delivers 10 _ alice_bob (mk 0 [])
           (mk_iterator 0 1) Hs).
Defined.

(** X16. The cursor that [snapshot_transactions] returns starts where
    the snapshot ends: the log the visitor saw, followed by what the
    cursor delivers under any interleaving with other threads, is an
    initial part of the account's log, with no entry missing and none
    twice. *)
Theorem snapshot_cursor_continues_log {R} (f : list transaction → Z → R)
    evs s a r it ts it' s' :
  snapshot_transactions a f (mem s) = Some (r, it) →
  deliver evs s it = Some (ts, it', s') →
  ∃ u u', mem s !! a = Some u ∧ r = f (transactions_ u) (balance_ u)
          ∧ mem s' !! a = Some u'
          ∧ (transactions_ u ++ ts) `prefix_of` transactions_ u'.
Proof.
  unfold snapshot_transactions. intros Hsnap Hd.
  destruct (mem s !! a) as [u|] eqn:Hu; [|done]. simplify_eq.
  destruct (deliver_sound _ _ _ _ _ _ _ _ Hu Hd)
    as (u' & Hu' & [k Hk] & _ & Hts).
  exists u, u'. split; [done|]. split; [done|]. split; [done|].
  rewrite Hk in Hts. rewrite drop_app_length in Hts.
  rewrite Hk, Hts. apply prefix_app, prefix_take.
Qed.

Lemma snapshot_cursor_continues_log_witness :
  ∃ s',
    snapshot_transactions 0 (λ l b, (length l, b)) (mem alice_bob)
    = Some ((1%nat, 100), mk_iterator 0 1)
    ∧ deliver [ev_other (op_transfer 1 0 10 "x"); ev_self;
               ev_other (op_transfer 1 0 5 "y")]
              alice_bob (mk_iterator 0 1)
      = Some ([bob_pays_10], mk_iterator 0 2, s')
    ∧ ∃ u u', mem alice_bob !! 0%nat = Some u
              ∧ (1%nat, 100) = (length (transactions_ u), balance_ u)
              ∧ mem s' !! 0%nat = Some u'
              ∧ (transactions_ u ++ [bob_pays_10])
                  `prefix_of` transactions_ u'.
Proof.
  eexists. split; [reflexivity|]. split; [reflexivity|].
  exact (snapshot_cursor_continues_log (λ l b, (length l, b))
           [ev_other (op_transfer 1 0 10 "x"); ev_self;
            ev_other (op_transfer 1 0 5 "y")]
           alice_bob 0%nat _ _ _ _ _ eq_refl eq_refl).
Defined.

(** X17. The cursor that [user::monitor] returns is blocked in
    [wait_next_transaction] exactly as long as nothing has been appended
    to the account's log since; once something has, the call returns the
    first entry appended. *)
Theorem monitor_cursor_blocks_until_appended ops s s' a it u u' :
  bank.monitor a (mem s) = Some it → run ops s = Some s' →
  mem s !! a = Some u → mem s' !! a = Some u' →
  (wait_next_transaction it (mem s') = None
   ↔ transactions_ u' = transactions_ u)
  ∧ (∀ cur, transactions_ u' !! length (transactions_ u) = Some cur →
            wait_next_transaction it (mem s')
            = Some (cur, mk_iterator a (S (length (transactions_ u))))).
Proof.
  unfold bank.monitor. intros Hmon Hrun Hu Hu'. rewrite Hu in Hmon.
  simplify_eq.
  destruct (extends_mem _ _ (run_extends _ _ _ Hrun) _ _ Hu)
    as (u1 & Hu1 & _ & [k Hk]).
  simplify_eq. split.
  - rewrite (wait_next_transaction_None _ _ u') by done. simpl.
    rewrite Hk, length_app. split.
    + intros Hlen. destruct k; [by rewrite app_nil_r|simpl in Hlen; lia].
    + intros Heq. apply (f_equal length) in Heq.
      rewrite length_app in Heq. lia.
  - intros cur Hcur.
    by rewrite (wait_next_transaction_Some _ _ u' cur).
Qed.

Lemma monitor_cursor_blocks_until_appended_witness :
  ∃ u',
    bank.monitor 1 (mem alice_bob) = Some (mk_iterator 1 1)
    ∧ run [op_transfer 0 1 40 "Test transfer"] alice_bob
      = Some simple_transfer
    ∧ mem alice_bob !! 1%nat = Some (user_ctor "Bob")
    ∧ mem simple_transfer !! 1%nat = Some u'
    ∧ (wait_next_transaction (mk_iterator 1 1) (mem simple_transfer) = None
       ↔ transactions_ u' = transactions_ (user_ctor "Bob"))
    ∧ (∀ cur,
         transactions_ u' !! length (transactions_ (user_ctor "Bob"))
         = Some cur →
         wait_next_transaction (mk_iterator 1 1) (mem simple_transfer)
         = Some (cur,
                 mk_iterator 1 (S (length (transactions_ (user_ctor "Bob")))))).
Proof.
  eexists. split; [reflexivity|]. split; [reflexivity|].
  split; [reflexivity|]. split; [reflexivity|].
  exact (monitor_cursor_blocks_until_appended
           [op_transfer 0 1 40 "Test transfer"] alice_bob simple_transfer
           1%nat _ _ _ eq_refl eq_refl eq_refl eq_refl).
Defined.

End streaming.
